(** * Newsletter generator and PDF overlay editor: a shallow embedding

    The definitions below follow [src/html_newsletter_generator_v2.py] and
    [src/pdf_editor_backend.py] function by function.  Python values are
    modelled as follows:
    - a [str] is the list of its Unicode code points ([N]);
    - a [dict] is a [gmap], a [set] a [gset], a [list] a [list];
    - an exception is an explicit error value in the result type;
    - an object that is modified in place is threaded through the calls. *)

From Stdlib Require Import NArith ZArith Strings.String Strings.Ascii.
From Stdlib Require QArith.Qcanon.
From stdpp Require Import base decidable option list sorting gmap strings.

(** ** Python strings *)

Module PyStr.
Local Open Scope N_scope.

Definition char := N.
Definition str := list char.

(** Code points of a literal (the literals used here are ASCII). *)
Definition lit (s : string) : str := N_of_ascii <$> list_ascii_of_string s.

(** [str.isspace] on one code point: the Unicode white space set used by
    [str.strip], [str.split] and by [\s] in a [str] regular expression. *)
Definition isspace (c : char) : bool :=
  ((9 <=? c) && (c <=? 13)) || ((28 <=? c) && (c <=? 32))
  || (c =? 133) || (c =? 160) || (c =? 5760)
  || ((8192 <=? c) && (c <=? 8202))
  || (c =? 8232) || (c =? 8233) || (c =? 8239) || (c =? 8287) || (c =? 12288).

(** The character class [[.!?]]. *)
Definition is_punct (c : char) : bool := (c =? 46) || (c =? 33) || (c =? 63).

Fixpoint take_while (f : char -> bool) (s : str) : str :=
  match s with
  | c :: r => if f c then c :: take_while f r else []
  | [] => []
  end.

Fixpoint drop_while (f : char -> bool) (s : str) : str :=
  match s with
  | c :: r => if f c then drop_while f r else s
  | [] => []
  end.

(** [s.strip()] *)
Definition lstrip (s : str) : str := drop_while isspace s.
Definition rstrip (s : str) : str := reverse (drop_while isspace (reverse s)).
Definition strip (s : str) : str := rstrip (lstrip s).

(** [s.split()]: the maximal runs of non white space characters. *)
Fixpoint split_ws_from (cur : str) (s : str) : list str :=
  match s with
  | [] => match cur with [] => [] | _ => [reverse cur] end
  | c :: r =>
      if isspace c
      then match cur with
           | [] => split_ws_from [] r
           | _ => reverse cur :: split_ws_from [] r
           end
      else split_ws_from (c :: cur) r
  end.
Definition split_ws (s : str) : list str := split_ws_from [] s.

(** [sep.join(l)] *)
Fixpoint join (sep : str) (l : list str) : str :=
  match l with
  | [] => []
  | [x] => x
  | x :: r => x ++ sep ++ join sep r
  end.

Definition space : str := [32].

(** [str.lower] restricted to ASCII text; used to run the cleaner on
    concrete ASCII inputs.  The general results take the case mapping as a
    parameter. *)
Definition ascii_lower_char (c : char) : char :=
  if (65 <=? c) && (c <=? 90) then c + 32 else c.
Definition ascii_lower (s : str) : str := ascii_lower_char <$> s.

End PyStr.

(** ** The regular expression [([.!?]+)\s+] and [re.split] *)

Module Regex.
Import PyStr.
Local Open Scope N_scope.

(** Anchored match at the head of [s]: a maximal non-empty run of
    punctuation followed by a maximal non-empty run of white space.  The
    two classes are disjoint, so the greedy match is the only one.  The
    result is group 1 and the text after the whole match. *)
Definition match_here (s : str) : option (str * str) :=
  let p := take_while is_punct s in
  let r := drop_while is_punct s in
  match p, take_while isspace r with
  | _ :: _, _ :: _ => Some (p, drop_while isspace r)
  | _, _ => None
  end.

(** [re.search]: the leftmost match; returns the text before the match,
    group 1 and the text after the match. *)
Fixpoint find_match (s : str) : option (str * str * str) :=
  match s with
  | [] => None
  | c :: r =>
      match match_here s with
      | Some (p, after) => Some ([], p, after)
      | None =>
          match find_match r with
          | Some (pre, p, after) => Some (c :: pre, p, after)
          | None => None
          end
      end
  end.

(** [re.split] with one capturing group: pieces and groups alternate, and
    the list always has odd length.  Every match consumes at least two
    characters, so [length s] iterations suffice. *)
Fixpoint re_split_fuel (fuel : nat) (s : str) : list str :=
  match fuel with
  | O => [s]
  | S fuel' =>
      match find_match s with
      | Some (pre, p, after) => pre :: p :: re_split_fuel fuel' after
      | None => [s]
      end
  end.
Definition re_split (s : str) : list str := re_split_fuel (length s) s.

End Regex.

(** ** [_clean_repetitive_text] *)

Module Cleaner.
Import PyStr Regex.
Local Open Scope N_scope.

(** [range(0, stop, 2)] *)
Definition range_by_two (stop : nat) : list nat :=
  (fun k => 2 * k)%nat <$> seq 0 ((stop + 1) / 2)%nat.

Definition get (sentences : list str) (i : nat) : str := default [] (sentences !! i).

(** One iteration of the reconstruction loop. *)
Definition rebuild_step (sentences : list str) (full_sentences : list str) (i : nat)
  : list str :=
  match strip (get sentences i) with
  | [] => full_sentences
  | _ :: _ =>
      let sentence := strip (get sentences i) in
      let sentence :=
        if (i + 1 <? length sentences)%nat then sentence ++ get sentences (i + 1)
        else sentence in
      full_sentences ++ [strip sentence]
  end.

(** The loop over [range(0, len(sentences) - 1, 2)] followed by the
    treatment of the last element. *)
Definition rebuild (sentences : list str) : list str :=
  let full_sentences :=
    foldl (rebuild_step sentences) [] (range_by_two (length sentences - 1)) in
  match (length sentences mod 2)%nat, strip (List.last sentences []) with
  | 1%nat, _ :: _ => full_sentences ++ [strip (List.last sentences [])]
  | _, _ => full_sentences
  end.

Section WithLower.
(** [str.lower], the Unicode case mapping of the runtime. *)
Variable lower : str -> str.

Definition normalize (sentence : str) : str := join space (split_ws (lower sentence)).

(** The deduplication loop; [seen] is the Python [set], [cleaned] the
    output list. *)
Fixpoint dedupe (sentences : list str) (seen : gset str) (cleaned : list str)
  : list str :=
  match sentences with
  | [] => cleaned
  | sentence :: rest =>
      let normalized := normalize sentence in
      if bool_decide (normalized ≠ []) && bool_decide (normalized ∉ seen)
         && (5 <? length normalized)%nat
      then dedupe rest ({[normalized]} ∪ seen) (cleaned ++ [sentence])
      else dedupe rest seen cleaned
  end.

Definition full_sentences_of (text : str) : list str := rebuild (re_split text).
Definition cleaned_of (text : str) : list str := dedupe (full_sentences_of text) ∅ [].

(** The function on a [str] argument ([pd.isna] is false on every
    [str]). *)
Definition _clean_repetitive_text (text : str) : str :=
  match text with
  | [] => text
  | _ :: _ =>
      let text := strip text in
      match text with
      | [] => text
      | _ :: _ =>
          let result := join space (cleaned_of text) in
          match result with
          | [] => text
          | _ :: _ => result
          end
      end
  end.
End WithLower.

Definition clean_ascii : str -> str := _clean_repetitive_text ascii_lower.

End Cleaner.

(** ** Exceptions *)

Module Exn.
Import PyStr.

Inductive exn :=
| FileError                      (* the workbook cannot be opened or parsed *)
| SheetNotFound (name : str)     (* [read_excel] on a sheet that is absent *)
| KeyError (key : str)           (* a column label that is absent *)
| IndexError                     (* sequence index out of range *)
| DrawError                      (* raised while drawing on the canvas *)
| IOError                        (* the output file cannot be opened *)
| ValueError                     (* an argument outside the accepted values *)
| TypeError                      (* ['<'] between values of different kinds *)
| UndefinedError.                (* a call of an undefined template value *)

Definition result (A : Type) : Type := exn + A.

Definition bind {A B} (r : result A) (k : A -> result B) : result B :=
  match r with
  | inl e => inl e
  | inr a => k a
  end.

Definition is_ok {A} (r : result A) : bool :=
  match r with inl _ => false | inr _ => true end.

End Exn.

Notation "'try' x <- e ; k" := (Exn.bind e (fun x => k))
  (at level 10, x name, e at level 100, k at level 200).

(** ** The part of pandas that the loader uses *)

Module Pandas.
Import PyStr Exn.

(** A cell of a sheet: missing ([NaN]) or a value, kept as its text. *)
Inductive cell := NaN | Text (s : str).

Definition notna (c : cell) : bool :=
  match c with NaN => false | Text _ => true end.

(** A row as a dictionary, the element type of [to_dict('records')]. *)
Abbreviation record := (gmap str cell).

Record DataFrame := { columns : list str; rows : list (list cell) }.

(** Positions of the columns labelled [name]. *)
Fixpoint positions_from (i : nat) (name : str) (cols : list str) : list nat :=
  match cols with
  | [] => []
  | c :: r =>
      if decide (c = name) then i :: positions_from (S i) name r
      else positions_from (S i) name r
  end.
Definition positions (name : str) (cols : list str) : list nat := positions_from 0 name cols.

Definition cell_at (row : list cell) (i : nat) : cell := default NaN (row !! i).

(** [df.dropna(subset=[name])]: fails when the label is absent, otherwise
    keeps the rows that have a value in every column with that label. *)
Definition dropna (name : str) (df : DataFrame) : result DataFrame :=
  match positions name (columns df) with
  | [] => inl (KeyError name)
  | ps =>
      inr {| columns := columns df;
             rows := List.filter (fun row => forallb (fun i => notna (cell_at row i)) ps)
                       (rows df) |}
  end.

(** [df.rename(columns=f)] *)
Definition rename (f : str -> str) (df : DataFrame) : DataFrame :=
  {| columns := f <$> columns df; rows := rows df |}.

(** [df.to_dict('records')]; with a repeated label the last column wins. *)
Definition to_record (cols : list str) (row : list cell) : record :=
  foldl (fun m kv => <[kv.1 := kv.2]> m) ∅ (zip cols row).
Definition to_dict_records (df : DataFrame) : list record :=
  to_record (columns df) <$> rows df.

(** [row[name]] on a row of [df.iterrows()]. *)
Definition row_get (df : DataFrame) (row : list cell) (name : str) : result cell :=
  match positions name (columns df) with
  | [] => inl (KeyError name)
  | i :: _ => inr (cell_at row i)
  end.

End Pandas.

(** ** [_load_data] *)

Module Loader.
Import PyStr Exn Pandas.

(** The workbook behind [excel_path]: [None] when the file cannot be read,
    otherwise its sheets by name. *)
Abbreviation workbook := (gmap str DataFrame).

Definition ExcelFile (excel : option workbook) : result workbook :=
  match excel with
  | None => inl FileError
  | Some wb => inr wb
  end.

Definition read_excel (excel : option workbook) (sheet_name : str) : result DataFrame :=
  try wb <- ExcelFile excel;
  match wb !! sheet_name with
  | None => inl (SheetNotFound sheet_name)
  | Some df => inr df
  end.

(** [{row['Field']: row['Value'] for _, row in df.iterrows()
      if pd.notna(row['Field'])}] *)
Fixpoint field_values (df : DataFrame) (todo : list (list cell)) (acc : record)
  : result record :=
  match todo with
  | [] => inr acc
  | row :: rest =>
      try field <- row_get df row (lit "Field");
      match field with
      | NaN => field_values df rest acc
      | Text key =>
          try value <- row_get df row (lit "Value");
          field_values df rest (<[key := value]> acc)
      end
  end.

Definition alias (c : str) : str :=
  if decide (c = lit "Objective") then lit "Description"
  else if decide (c = lit "Outcome") then lit "Description"
  else c.

(** [self.data] once [_load_data] has returned. *)
Record data := {
  info : record;
  editorial : list record;
  vision_mission : list record;
  peo : list record;
  pso : list record;
  events : list record;
  contact : record
}.

Definition records_of (key : str) (df : DataFrame) : result (list record) :=
  try df <- dropna key df; inr (to_dict_records df).

Definition load_body (excel : option workbook) : result data :=
  try excel_file <- ExcelFile excel;
  try df <- read_excel excel (lit "Newsletter Info");
  try info <- field_values df (rows df) ∅;
  try df <- read_excel excel (lit "Editorial Board");
  try editorial <- records_of (lit "Role") df;
  try vision_mission <-
    match excel_file !! lit "Vision & Mission" with
    | Some _ =>
        try df <- read_excel excel (lit "Vision & Mission");
        records_of (lit "Type") df
    | None => inr []
    end;
  try peo <-
    match excel_file !! lit "Program Objectives" with
    | Some _ =>
        try df <- read_excel excel (lit "Program Objectives");
        records_of (lit "Code") (rename alias (rename strip df))
    | None => inr []
    end;
  try pso <-
    match excel_file !! lit "Program Outcomes" with
    | Some _ =>
        try df <- read_excel excel (lit "Program Outcomes");
        records_of (lit "Code") (rename alias (rename strip df))
    | None => inr []
    end;
  try df <- read_excel excel (lit "Department Events");
  try events <- records_of (lit "Event Title") df;
  try contact <-
    match excel_file !! lit "Contact Info" with
    | Some _ =>
        try df <- read_excel excel (lit "Contact Info");
        field_values df (rows df) ∅
    | None => inr ∅
    end;
  inr {| info := info; editorial := editorial; vision_mission := vision_mission;
         peo := peo; pso := pso; events := events; contact := contact |}.

(** The exceptions that leave the generator: each wraps its cause. *)
Inductive failure :=
| ErrorLoadingExcel (cause : exn)
| ErrorGeneratingNewsletter (cause : exn).

(** [_load_data]: any exception of the body is re-raised as the single
    ["Error loading Excel: ..."] exception. *)
Definition _load_data (excel : option workbook) : failure + data :=
  match load_body excel with
  | inl e => inl (ErrorLoadingExcel e)
  | inr d => inr d
  end.

(** The sheets that are read without a presence test. *)
Definition unconditional_sheets : list str :=
  [lit "Newsletter Info"; lit "Editorial Board"; lit "Department Events"].

(** The sheets that are read only when present. *)
Definition guarded_sheets : list str :=
  [lit "Vision & Mission"; lit "Program Objectives"; lit "Program Outcomes";
   lit "Contact Info"].

(** [os.path.join(a, b)] with the POSIX separator. *)
Definition os_path_join (a b : str) : str :=
  match b with
  | 47%N :: _ => b
  | _ =>
      match last a with
      | None => b
      | Some 47%N => a ++ b
      | Some _ => a ++ [47%N] ++ b
      end
  end.

Section Generate.
(** [generate_html] after loading; the template engine is not modelled. *)
Variable generate_html : data -> result str.

(** Whether [os.makedirs] of the folder and [open(html_path, 'w')] both
    succeed. *)
Variable can_write : str -> bool.

(** What a call leaves behind: an exception, or the path and the content
    of the one file it wrote. *)
Inductive outcome :=
| Raised (f : failure)
| Wrote (path : str) (html : str).

Definition generate (session_id : str) (d : data) : outcome :=
  match generate_html d with
  | inl e => Raised (ErrorGeneratingNewsletter e)
  | inr html_content =>
      let output_folder := os_path_join (lit "generated") session_id in
      let html_path := os_path_join output_folder (lit "newsletter.html") in
      if can_write html_path then Wrote html_path html_content
      else Raised (ErrorGeneratingNewsletter IOError)
  end.

(** [generate_html_newsletter]: the constructor runs [_load_data]; when
    it raises, [generate] is never reached. *)
Definition generate_html_newsletter (excel : option workbook) (session_id : str) : outcome :=
  match _load_data excel with
  | inl f => Raised f
  | inr d => generate session_id d
  end.
End Generate.

End Loader.

(** ** [_group_events_by_section] *)

Module Grouper.
Import PyStr Pandas.

(** One iteration of the loop over [self.data['events']]. *)
Definition group_step (sections : gmap str (list record)) (event : record)
  : gmap str (list record) :=
  let section := default (Text (lit "OTHER ACTIVITIES")) (event !! lit "Department/Section") in
  match section with
  | NaN => sections
  | Text name =>
      let sections :=
        match sections !! name with
        | None => <[name := []]> sections
        | Some _ => sections
        end in
      alter (fun l => l ++ [event]) name sections
  end.

Definition _group_events_by_section (events : list record) : gmap str (list record) :=
  foldl group_step ∅ events.

(** The section an event is filed under, if any. *)
Definition section_of (event : record) : option str :=
  match default (Text (lit "OTHER ACTIVITIES")) (event !! lit "Department/Section") with
  | NaN => None
  | Text name => Some name
  end.

End Grouper.

(** ** Section order and page numbers in [generate_html] *)

Module Pages.
Import PyStr Exn Pandas.

(** Comparison of two [str] values: lexicographic on code points. *)
Fixpoint str_leb (a b : str) : bool :=
  match a, b with
  | [], _ => true
  | _ :: _, [] => false
  | x :: a', y :: b' =>
      if (x <? y)%N then true
      else if (x =? y)%N then str_leb a' b'
      else false
  end.

Definition str_le (a b : str) : Prop := str_leb a b = true.

#[global] Instance str_le_dec : RelDecision str_le.
Proof. intros a b. unfold str_le. apply _. Defined.

(** A key of [sections]: the cell value itself, which is a text, a number
    or a timestamp.  Numbers ([int], [float], [bool]) are equal as keys
    and ordered by their value, so a number is the rational it denotes. *)
Inductive value :=
| VText (s : str)
| VNumber (q : Qcanon.Qc)
| VTimestamp (t : Z).

#[global] Instance value_eq_dec : EqDecision value.
Proof. solve_decision. Defined.

#[global] Instance value_countable : Countable value.
Proof.
  refine (inj_countable'
    (fun v => match v with
              | VText s => inl s
              | VNumber q => inr (inl q)
              | VTimestamp t => inr (inr t)
              end)
    (fun x => match x with
              | inl s => VText s
              | inr (inl q) => VNumber q
              | inr (inr t) => VTimestamp t
              end) _).
  by intros [].
Defined.

Definition as_text (v : value) : option str :=
  match v with VText s => Some s | _ => None end.
Definition as_number (v : value) : option Qcanon.Qc :=
  match v with VNumber q => Some q | _ => None end.
Definition as_timestamp (v : value) : option Z :=
  match v with VTimestamp t => Some t | _ => None end.

(** [sorted(l)]: texts by code points, numbers and timestamps by value;
    ['<'] between values of two different kinds raises [TypeError], and
    sorting a list that holds two kinds evaluates such a comparison.  The
    elements sorted here are pairwise distinct, so the result does not
    depend on the sorting algorithm. *)
Definition sorted (l : list value) : result (list value) :=
  match mapM as_text l, mapM as_number l, mapM as_timestamp l with
  | Some names, _, _ => inr (VText <$> merge_sort str_le names)
  | None, Some numbers, _ => inr (VNumber <$> merge_sort Qcanon.Qcle numbers)
  | None, None, Some times => inr (VTimestamp <$> merge_sort Z.le times)
  | None, None, None => inl TypeError
  end.

(** [sorted(sections.keys())] *)
Definition sorted_keys (sections : gmap value (list record)) : result (list value) :=
  sorted (elements (dom sections)).

Definition enumerate {A} (l : list A) : list (nat * A) := imap (fun idx x => (idx, x)) l.

Definition start_section_page : nat := 4.

(** [{name: start_section_page + idx for idx, name in enumerate(sorted_sections)}] *)
Definition section_page_map (sorted_sections : list value) : gmap value nat :=
  foldl (fun m p => <[p.2 := start_section_page + p.1]> m) ∅ (enumerate sorted_sections).

(** The [a4] blocks of the template, in the order in which they are
    emitted. *)
Inductive a4_page :=
| EditorialBoardPage
| VisionMissionPage
| ContentsPage (table : list (nat * str * option nat))   (* S.NO, name, PAGE NO *)
| SectionPage (section_name : str) (section_events : list record)
| ContactPage.

(** [section_name.upper()] in the template is defined on a text only;
    on a number or a timestamp the call raises [UndefinedError].  The
    names are listed here as they are, before the change of case. *)
Definition text_names (sorted_sections : list value) : result (list str) :=
  match mapM as_text sorted_sections with
  | Some names => inr names
  | None => inl UndefinedError
  end.

Definition contents_rows (names : list str) (page_map : gmap value nat)
  : list (nat * str * option nat) :=
  (fun p => (p.1 + 1, p.2, page_map !! VText p.2)) <$> enumerate names.

Definition section_pages (sections : gmap value (list record)) (names : list str)
  : list a4_page :=
  (fun name => SectionPage name (default [] (sections !! VText name))) <$> names.

(** The part of [generate_html] after the grouping: sorting, page map,
    rendering of the blocks. *)
Definition document_pages (sections : gmap value (list record)) : result (list a4_page) :=
  try sorted_sections <- sorted_keys sections;
  let page_map := section_page_map sorted_sections in
  try names <- text_names sorted_sections;
  inr ([EditorialBoardPage; VisionMissionPage; ContentsPage (contents_rows names page_map)]
       ++ section_pages sections names ++ [ContactPage]).

(** The order in which [sorted] leaves two values of one kind. *)
Inductive value_le : value -> value -> Prop :=
| le_text a b : str_le a b -> value_le (VText a) (VText b)
| le_number a b : Qcanon.Qcle a b -> value_le (VNumber a) (VNumber b)
| le_timestamp a b : Z.le a b -> value_le (VTimestamp a) (VTimestamp b).

End Pages.

(** ** [_convert_images_to_base64] *)

Module Images.
Import PyStr.

(** The files seen by the resolver: [os.path.exists], and the result of
    [_encode_image] on a path ([None] when it returns [None]). *)
Record files := { path_exists : str -> bool; _encode_image : str -> option str }.

Definition slash : char := 47%N.

(** [os.path.join] and [os.path.basename] with the POSIX separator. *)
Definition path_join (parts : list str) : str := join [slash] parts.
Definition basename (path : str) : str :=
  reverse (take_while (fun c => negb (c =? slash)%N) (reverse path)).

(** [s.replace('\\', '/')] *)
Definition to_slashes (s : str) : str :=
  (fun c => if (c =? 92)%N then slash else c) <$> s.

Definition header_keys : list (str * str) :=
  [ (lit "college_logo", path_join [lit "static"; lit "images"; lit "college_logo.png"]);
    (lit "orbits_logo", path_join [lit "static"; lit "images"; lit "orbits_logo.png"]);
    (lit "naac_badge", path_join [lit "static"; lit "images"; lit "naac_badge.png"]);
    (lit "vision", path_join [lit "static"; lit "images"; lit "vision.png"]) ].

(** The first loop: a path reference for each header image that exists. *)
Definition header_step (fs : files) (image_paths : gmap str str) (kp : str * str)
  : gmap str str :=
  if path_exists fs kp.2
  then <[kp.1 := to_slashes (path_join [lit "static"; lit "images"; basename kp.2])]>
         image_paths
  else image_paths.

Definition header_paths (fs : files) : gmap str str :=
  foldl (header_step fs) ∅ header_keys.

(** The body of the second loop for one entry of [self.image_paths]: the
    payload stored under [key], if any.  Each iteration writes its own
    key only, so the loop is a map over the entries. *)
Definition embed_entry (fs : files) (image_paths : gmap str str) (key path : str)
  : option str :=
  if decide (is_Some (image_paths !! key)) then None
  else if path_exists fs path then
    match _encode_image fs path with
    | Some (c :: encoded) => Some (c :: encoded)
    | _ => None
    end
  else None.

Definition _convert_images_to_base64 (fs : files) (self_image_paths : gmap str str)
  : gmap str str * gmap str str :=
  let image_paths := header_paths fs in
  let embedded_images := map_imap (embed_entry fs image_paths) self_image_paths in
  (embedded_images, image_paths).

End Images.

(** ** [PDFEditor] *)

Module PdfEditor.
Import PyStr Exn.

(** [seq[i]] for a Python sequence, as in [self.reader.pages[page_num]]:
    a negative index counts from the end, and a position outside the
    sequence raises [IndexError]. *)
Definition normalize_index (len : nat) (i : Z) : result nat :=
  let j := (if i <? 0 then Z.of_nat len + i else i)%Z in
  if ((j <? 0) || (Z.of_nat len <=? j))%Z then inl IndexError else inr (Z.to_nat j).

(** The position that is read and the element found there. *)
Definition getitem_at {A} (l : list A) (i : Z) : result (nat * A) :=
  try j <- normalize_index (length l) i;
  match l !! j with
  | Some x => inr (j, x)
  | None => inl IndexError
  end.

Definition getitem {A} (l : list A) (i : Z) : result A :=
  try jx <- getitem_at l i; inr jx.2.

Section Editor.
(** Page objects, overlays, and the library operations on them. *)
Context {page overlay : Type}.
Variable merge_page : page -> overlay -> page.
Variable rotate : page -> Z -> page.
Variable page_text : page -> str.

(** What is drawn on the transient canvas. *)
Inductive primitive :=
| DrawString (text : str) (x y font_size : Z) (color font_name : str)
| DrawImage (image_path : str) (x y width height : Z)
| DrawRect (x y width height : Z) (fill_color stroke_color : str) (stroke_width : Z)
| DrawLine (x1 y1 x2 y2 : Z) (color : str) (width : Z).

(** The canvas part of a drawing operation: the one-page overlay, or an
    exception (unknown font, malformed colour, unreadable image). *)
Variable draw : primitive -> result overlay.

(** The editor object.  [reader] holds the page objects of the source
    document; they are modified in place by [merge_page] and [rotate],
    which is the update of [reader] at the position read.  [writer] is the
    output sequence, each page as it is when [add_page] receives it. *)
Record PDFEditor := {
  reader : list page;
  writer : list page;
  num_pages : nat
}.

Definition __init__ (source : list page) : PDFEditor :=
  {| reader := source; writer := []; num_pages := length source |}.

Definition get_page_count (self : PDFEditor) : nat := num_pages self.

(** A method call: the value or the exception, and the editor as the
    call leaves it. *)
Definition call (A : Type) : Type := result A * PDFEditor.

(** The common tail of the drawing operations: fetch the page, merge the
    overlay into it, append it to the writer. *)
Definition overlay_page (self : PDFEditor) (page_num : Z) (o : overlay) : call bool :=
  match getitem_at (reader self) page_num with
  | inl e => (inl e, self)
  | inr (j, p) =>
      let p' := merge_page p o in
      (inr true, {| reader := <[j := p']> (reader self);
                    writer := writer self ++ [p'];
                    num_pages := num_pages self |})
  end.

Definition draw_on (self : PDFEditor) (page_num : Z) (what : primitive) : call bool :=
  match draw what with
  | inl e => (inl e, self)
  | inr o => overlay_page self page_num o
  end.

Definition add_text (self : PDFEditor) (page_num : Z) (text : str) (x y font_size : Z)
  (color font_name : str) : call bool :=
  draw_on self page_num (DrawString text x y font_size color font_name).

Definition add_image (self : PDFEditor) (page_num : Z) (image_path : str)
  (x y width height : Z) : call bool :=
  draw_on self page_num (DrawImage image_path x y width height).

Definition add_rectangle (self : PDFEditor) (page_num : Z) (x y width height : Z)
  (fill_color stroke_color : str) (stroke_width : Z) : call bool :=
  draw_on self page_num (DrawRect x y width height fill_color stroke_color stroke_width).

Definition add_line (self : PDFEditor) (page_num : Z) (x1 y1 x2 y2 : Z) (color : str)
  (width : Z) : call bool :=
  draw_on self page_num (DrawLine x1 y1 x2 y2 color width).

(** [page.rotate(angle)] raises [ValueError] unless [angle] is a multiple
    of 90; [rotate] is its effect on the page when it is one. *)
Definition rotate_page (self : PDFEditor) (page_num : Z) (angle : Z) : call bool :=
  match getitem_at (reader self) page_num with
  | inl e => (inl e, self)
  | inr (j, p) =>
      if decide (angle mod 90 = 0)%Z then
        let p' := rotate p angle in
        (inr true, {| reader := <[j := p']> (reader self);
                      writer := writer self ++ [p'];
                      num_pages := num_pages self |})
      else (inl ValueError, self)
  end.

(** The loop of [delete_page] over [range(self.num_pages)]. *)
Fixpoint delete_loop (self : PDFEditor) (page_num : Z) (todo : list nat) : call bool :=
  match todo with
  | [] => (inr true, self)
  | i :: rest =>
      if decide (Z.of_nat i = page_num) then delete_loop self page_num rest
      else
        match getitem (reader self) (Z.of_nat i) with
        | inl e => (inl e, self)
        | inr p =>
            delete_loop {| reader := reader self; writer := writer self ++ [p];
                           num_pages := num_pages self |} page_num rest
        end
  end.

Definition delete_page (self : PDFEditor) (page_num : Z) : call bool :=
  delete_loop self page_num (seq 0 (num_pages self)).

Definition extract_text (self : PDFEditor) (page_num : Z) : call str :=
  match getitem (reader self) page_num with
  | inl e => (inl e, self)
  | inr p => (inr (page_text p), self)
  end.

(** The documents on disk, by path, and [save].  [writable] tells whether
    [open(output_path, 'wb')] succeeds. *)
Variable writable : str -> bool.

Definition save (self : PDFEditor) (disk : gmap str (list page)) (output_path : str)
  : result bool * gmap str (list page) :=
  if writable output_path then (inr true, <[output_path := writer self]> disk)
  else (inl IOError, disk).

End Editor.

Arguments PDFEditor : clear implicits.
Arguments call : clear implicits.

End PdfEditor.

(** ** [_build_event_details] and the use of its results by the template *)

Module Details.
Import PyStr Pandas Images.

Section WithLower.
(** [str.lower], the Unicode case mapping of the runtime. *)
Variable lower : str -> str.

(** [pd.notna(x) and str(x).lower() != 'nan'] for [x = event.get(key)]:
    the text that is displayed, if any.  A missing key gives [None], on
    which [pd.notna] is false. *)
Definition displayed (x : option cell) : option str :=
  match x with
  | Some (Text s) => if decide (lower s = lit "nan") then None else Some s
  | Some NaN => None
  | None => None
  end.

Definition _build_event_details (event : record) : list str :=
  let details := [] in
  let speaker := event !! lit "Guest Speaker" in
  let details :=
    match displayed speaker with
    | Some s => details ++ [lit "Guest Speaker: " ++ s]
    | None => details
    end in
  let location := event !! lit "Location" in
  let details :=
    match displayed location with
    | Some s => details ++ [lit "Location: " ++ s]
    | None => details
    end in
  details.

(** [event_details_list] of [generate_html]: one entry per event of
    [self.data['events']], in order. *)
Definition event_details_list (events : list record) : list (list str) :=
  _build_event_details <$> events.

End WithLower.

(** The loop [{% for event in sections[section_name] %}] of the
    template: each event is rendered with
    [event_details_map[loop.index0]], where [loop.index0] is the position
    of the event inside the section; a position outside the list is
    undefined and renders nothing. *)
Definition section_blocks (event_details_map : list (list str))
    (section_events : list record) : list (record * option (list str)) :=
  imap (fun index0 event => (event, event_details_map !! index0)) section_events.

(** The source of a header image in the template:
    [{% if college_logo_path %} ... {% elif college_logo_b64 %} ...], with
    [college_logo_b64 = embedded_images.get(key, '')] and
    [college_logo_path = image_file_paths.get(key)]. *)
Inductive image_source :=
| FromPath (path : str)
| Inline (base64 : str).

Definition header_image (embedded_images image_file_paths : gmap str str) (key : str)
  : option image_source :=
  let b64 := default [] (embedded_images !! key) in
  let path := image_file_paths !! key in
  match path with
  | Some (c :: p) => Some (FromPath (c :: p))
  | _ =>
      match b64 with
      | c :: b => Some (Inline (c :: b))
      | [] => None
      end
  end.

End Details.

(** ** [PDFEditor.merge_pdfs] *)

Module PdfMerge.
Import PyStr Exn PdfEditor.

Section Merge.
Context {page : Type}.

(** [PdfReader(pdf_path)] on the documents that can be read from disk. *)
Definition PdfReader (disk : gmap str (list page)) (pdf_path : str) : result (list page) :=
  match disk !! pdf_path with
  | Some pages => inr pages
  | None => inl FileError
  end.

(** The loop over [pdf_paths]; an unreadable document raises after the
    pages of the documents before it have been added. *)
Fixpoint merge_pdfs (self : PDFEditor page) (disk : gmap str (list page))
    (pdf_paths : list str) : call page bool :=
  match pdf_paths with
  | [] => (inr true, self)
  | pdf_path :: rest =>
      match PdfReader disk pdf_path with
      | inl e => (inl e, self)
      | inr pages =>
          merge_pdfs {| reader := reader self; writer := writer self ++ pages;
                        num_pages := num_pages self |} disk rest
      end
  end.

End Merge.

End PdfMerge.

(** ** What every call on a [PDFEditor] preserves *)

Module PdfInvariant.
Import PdfEditor.

(** [keeps before after]: the writer of [after] starts with the writer of
    [before], the source document has as many pages as before, and the
    stored page count is the same. *)
Definition keeps {page : Type} (before after : PDFEditor page) : Prop :=
  writer before `prefix_of` writer after /\
  length (reader after) = length (reader before) /\
  num_pages after = num_pages before.

End PdfInvariant.

(** ** Predicates on sentences used to state the invariants of the cleaner *)

Module Sentences.
Import PyStr.

(** First and last character predicates.  [starts_ink s]: [s] is not
    empty and its first character is not white space; [ends_ink s]
    likewise for the last one; [ends_plain s]: the last character of
    [s], if any, is not punctuation. *)
Definition starts_ink (s : str) : Prop :=
  match head s with Some c => isspace c = false | None => False end.
Definition ends_ink (s : str) : Prop :=
  match last s with Some c => isspace c = false | None => False end.
Definition ends_plain (s : str) : Prop :=
  match last s with Some c => is_punct c = false | None => True end.
Definition not_space_first (s : str) : Prop :=
  match s with c :: _ => isspace c = false | [] => True end.

(** [calm s]: no punctuation character of [s] is directly followed by a
    white space character. *)
Fixpoint calm (s : str) : Prop :=
  match s with
  | c :: r =>
      match r with
      | d :: _ => ~ (is_punct c = true /\ isspace d = true)
      | [] => True
      end /\ calm r
  | [] => True
  end.

(** A sentence made from the last piece: stripped, not empty, calm. *)
Definition tail_sentence (t : str) : Prop := starts_ink t /\ ends_ink t /\ calm t.

(** A sentence made from a piece and its punctuation group. *)
Definition closed_sentence (c : str) : Prop :=
  exists b p, c = b ++ p /\ starts_ink b /\ ends_ink b /\ ends_plain b /\ calm b /\
              p <> [] /\ Forall (fun x => is_punct x = true) p.

Inductive shape : list str -> Prop :=
| shape_nil : shape []
| shape_last t : tail_sentence t -> shape [t]
| shape_cons c l : closed_sentence c -> shape l -> shape (c :: l).

End Sentences.

(** ** Workbooks whose sheets have the columns that the loader indexes *)

Module Usable.
Import PyStr Pandas Loader.

(** The columns that the loader indexes in each sheet that is present. *)
Definition has_columns (wb : workbook) (sheet : str) (names : list str)
    (relabel : DataFrame -> DataFrame) : bool :=
  match wb !! sheet with
  | Some df => forallb (fun n => bool_decide (n ∈ columns (relabel df))) names
  | None => true
  end.

Definition usable (wb : workbook) : bool :=
  has_columns wb (lit "Newsletter Info") [lit "Field"; lit "Value"] id
  && has_columns wb (lit "Editorial Board") [lit "Role"] id
  && has_columns wb (lit "Vision & Mission") [lit "Type"] id
  && has_columns wb (lit "Program Objectives") [lit "Code"]
       (fun df => rename alias (rename strip df))
  && has_columns wb (lit "Program Outcomes") [lit "Code"]
       (fun df => rename alias (rename strip df))
  && has_columns wb (lit "Department Events") [lit "Event Title"] id
  && has_columns wb (lit "Contact Info") [lit "Field"; lit "Value"] id.

End Usable.

(** ** Sample inputs *)

Module Samples.
Import PyStr Exn Pandas Loader Grouper Pages Images PdfEditor.

(** Events. *)
Definition talk : record :=
  {[ lit "Event Title" := Text (lit "Talk") ]}.
Definition talk_without_section : record :=
  {[ lit "Event Title" := Text (lit "Talk"); lit "Department/Section" := NaN ]}.

(** Section dictionaries. *)
Definition three_sections : gmap value (list record) :=
  {[ VText (lit "Gamma") := []; VText (lit "Alpha") := []; VText (lit "Beta") := [] ]}.

(** A file system without the static header images, in which the caller's
    upload exists and encodes. *)
Definition uploads_only : files :=
  {| path_exists := fun p => bool_decide (p = lit "uploads/logo.png");
     _encode_image := fun p => Some (lit "aGVsbG8=") |}.
Definition caller_logo : gmap str str :=
  {[ lit "college_logo" := lit "uploads/logo.png" ]}.

(** Workbooks. *)
Definition info_sheet : DataFrame :=
  {| columns := [lit "Field"; lit "Value"];
     rows := [[Text (lit "Month"); Text (lit "AUGUST")]; [NaN; Text (lit "x")]] |}.
Definition board_sheet : DataFrame :=
  {| columns := [lit "Role"; lit "Name"; lit "Designation"];
     rows := [[Text (lit "Editor"); Text (lit "A. Kumar"); Text (lit "Professor")]] |}.
Definition events_sheet : DataFrame :=
  {| columns := [lit "Event Title"; lit "Department/Section"];
     rows := [[Text (lit "Talk"); Text (lit "Tech Talks")]] |}.
Definition board_sheet_without_role : DataFrame :=
  {| columns := [lit "Name"; lit "Designation"];
     rows := [[Text (lit "A. Kumar"); Text (lit "Professor")]] |}.

Definition three_sheets : workbook :=
  {[ lit "Newsletter Info" := info_sheet; lit "Editorial Board" := board_sheet;
     lit "Department Events" := events_sheet ]}.
Definition no_info_sheet : workbook :=
  {[ lit "Editorial Board" := board_sheet; lit "Department Events" := events_sheet ]}.
Definition no_role_column : workbook :=
  {[ lit "Newsletter Info" := info_sheet; lit "Editorial Board" := board_sheet_without_role;
     lit "Department Events" := events_sheet ]}.

(** A small instance: pages are numbers, an overlay is a number added to
    the page, every drawing succeeds with overlay 100. *)
Definition demo_merge (p o : nat) : nat := (p + o)%nat.
Definition demo_rotate (p : nat) (angle : Z) : nat := p.
Definition demo_text (p : nat) : str := [N.of_nat p].
Definition demo_draw (what : primitive) : result nat := inr 100%nat.
Definition demo_editor : PDFEditor nat := __init__ [10; 11; 12; 13; 14]%nat.

End Samples.

(** ** More sample inputs *)

Module MoreSamples.
Import PyStr Exn Pandas Loader Grouper Pages Images PdfEditor.

(** Section dictionaries whose names are not all texts. *)
Definition mixed_sections : gmap value (list record) :=
  {[ VText (lit "Alpha") := []; VNumber (Qc_of_Z 9) := [] ]}.
Definition numbered_sections : gmap value (list record) :=
  {[ VNumber (Qc_of_Z 10) := []; VNumber (Qc_of_Z 9) := [] ]}.

(** Documents on disk. *)
Definition demo_disk : gmap str (list nat) := {[ lit "a.pdf" := [1; 2]%nat ]}.

(** Two events of different sections, each with a speaker. *)
Definition keynote : record :=
  {[ lit "Event Title" := Text (lit "Keynote");
     lit "Department/Section" := Text (lit "Alpha");
     lit "Guest Speaker" := Text (lit "Dr. Rao") ]}.
Definition workshop : record :=
  {[ lit "Event Title" := Text (lit "Workshop");
     lit "Department/Section" := Text (lit "Beta");
     lit "Guest Speaker" := Text (lit "Prof. Iyer") ]}.

(** A sheet with a blank role, and the row that follows [info_sheet]. *)
Definition board_with_blank : DataFrame :=
  {| columns := [lit "Role"; lit "Name"];
     rows := [[Text (lit "Editor"); Text (lit "A. Kumar")];
              [NaN; Text (lit "B. Devi")];
              [Text (lit "Director"); Text (lit "C. Nair")]] |}.
Definition month_again : list cell := [Text (lit "Month"); Text (lit "MAY")].

(** A Program Objectives sheet whose labels carry stray blanks. *)
Definition objectives_sheet : DataFrame :=
  {| columns := [lit " Code"; lit "Objective "];
     rows := [[Text (lit "PEO1"); Text (lit "Graduates will excel.")]] |}.

End MoreSamples.

(** * Properties of the text cleaner *)

Module CleanerFacts.
Import PyStr Regex Cleaner Sentences.
Local Open Scope N_scope.

(** ** Character classes, prefixes and suffixes *)

Lemma punct_not_space c : is_punct c = true -> isspace c = false.
Proof.
  unfold is_punct. intros H.
  apply orb_true_iff in H as [H|H]; [apply orb_true_iff in H as [H|H]|];
    apply N.eqb_eq in H; subst c; reflexivity.
Qed.

Lemma take_drop_while f s : take_while f s ++ drop_while f s = s.
Proof. induction s as [|c r IH]; simpl; [done|]. destruct (f c); simpl; by rewrite ?IH. Qed.

Lemma take_while_all f s : Forall (fun c => f c = true) (take_while f s).
Proof.
  induction s as [|c r IH]; simpl; [constructor|].
  destruct (f c) eqn:E; constructor; done.
Qed.

Lemma drop_while_head f s c r : drop_while f s = c :: r -> f c = false.
Proof.
  induction s as [|d t IH]; simpl; [done|].
  destruct (f d) eqn:E; [done|]. intros [= -> ->]. done.
Qed.

Lemma take_while_run f p r :
  Forall (fun c => f c = true) p ->
  match r with c :: _ => f c = false | [] => True end ->
  take_while f (p ++ r) = p /\ drop_while f (p ++ r) = r.
Proof.
  intros Hp Hr. induction Hp as [|c p Hc _ IH]; simpl.
  - destruct r as [|c r]; [done|]. simpl. by rewrite Hr.
  - rewrite Hc. destruct IH as [-> ->]. done.
Qed.

Lemma drop_while_length f s : (length (drop_while f s) <= length s)%nat.
Proof. induction s as [|c r IH]; simpl; [lia|]. destruct (f c); simpl; lia. Qed.

Lemma calm_app_l a b : calm (a ++ b) -> calm a.
Proof.
  induction a as [|c r IH]; simpl; [done|].
  intros [H1 H2]. split; [|by apply IH].
  destruct r; simpl in *; done.
Qed.

Lemma calm_app_r a b : calm (a ++ b) -> calm b.
Proof. induction a as [|c r IH]; simpl; [done|]. intros [_ H]. by apply IH. Qed.

Lemma calm_boundary a c d b :
  calm (a ++ c :: d :: b) -> ~ (is_punct c = true /\ isspace d = true).
Proof. intros H. apply calm_app_r in H. simpl in H. tauto. Qed.

Lemma calm_join a b :
  calm a -> calm b ->
  (forall c d, last a = Some c -> head b = Some d ->
               ~ (is_punct c = true /\ isspace d = true)) ->
  calm (a ++ b).
Proof.
  induction a as [|c r IH]; simpl; [done|].
  intros [H1 H2] Hb Hl. split.
  - destruct r as [|d r']; simpl.
    + destruct b as [|d b']; [done|]. apply Hl; done.
    + done.
  - apply IH; [done..|]. intros c' d' Hc' Hd'. apply Hl; [|done].
    destruct r; [done|]. by rewrite last_cons, Hc'.
Qed.

Lemma calm_all_punct p : Forall (fun c => is_punct c = true) p -> calm p.
Proof.
  induction 1 as [|c p Hc Hp IH]; simpl; [done|]. split; [|done].
  destruct Hp as [|d p' Hd _]; [done|].
  intros [_ Hs]. apply punct_not_space in Hd. congruence.
Qed.

(** ** The anchored match and the search *)

Lemma match_here_Some s p after :
  match_here s = Some (p, after) ->
  exists w, s = p ++ w ++ after /\ p <> [] /\ w <> [] /\
            Forall (fun c => is_punct c = true) p /\
            Forall (fun c => isspace c = true) w /\
            not_space_first after.
Proof.
  unfold match_here. intros H.
  pose proof (take_drop_while is_punct s) as E1.
  pose proof (take_drop_while isspace (drop_while is_punct s)) as E2.
  pose proof (take_while_all is_punct s) as A1.
  pose proof (take_while_all isspace (drop_while is_punct s)) as A2.
  destruct (take_while is_punct s) as [|c p'] eqn:Ep; [done|].
  destruct (take_while isspace (drop_while is_punct s)) as [|d w'] eqn:Ew; [done|].
  injection H as <- <-. exists (d :: w'). rewrite E2. repeat split; try done.
  unfold not_space_first.
  destruct (drop_while isspace (drop_while is_punct s)) as [|e r] eqn:Ed; [done|].
  by apply drop_while_head in Ed.
Qed.

Lemma match_here_intro p w after :
  p <> [] -> w <> [] ->
  Forall (fun c => is_punct c = true) p ->
  Forall (fun c => isspace c = true) w ->
  not_space_first after ->
  match_here (p ++ w ++ after) = Some (p, after).
Proof.
  intros Hp Hw Ap Aw Ha. unfold match_here.
  destruct (take_while_run is_punct p (w ++ after) Ap) as [-> ->].
  { destruct w as [|d w']; [done|]. simpl. inversion Aw; subst.
    destruct (is_punct d) eqn:E; [|done]. apply punct_not_space in E. congruence. }
  destruct (take_while_run isspace w after Aw Ha) as [-> ->].
  destruct p; [done|]. destruct w; done.
Qed.

(** After a punctuation character of a calm string, the run of
    punctuation is not followed by white space. *)
Lemma calm_run c s :
  calm (c :: s) -> is_punct c = true ->
  not_space_first (drop_while is_punct s).
Proof.
  revert c. induction s as [|d r IH]; intros c Hc Hp; simpl; [done|].
  destruct Hc as [H1 H2]. destruct (is_punct d) eqn:E.
  - by apply (IH d).
  - simpl. destruct (isspace d) eqn:Ed; [|done]. exfalso. by apply H1.
Qed.

Lemma calm_match_here s : calm s -> match_here s = None.
Proof.
  intros H. unfold match_here. destruct s as [|c r]; [done|]. simpl.
  destruct (is_punct c) eqn:E; [|done].
  pose proof (calm_run c r H E) as Hr.
  destruct (drop_while is_punct r) as [|d t]; [done|]. simpl in *. by rewrite Hr.
Qed.

Lemma calm_find_match s : calm s -> find_match s = None.
Proof.
  induction s as [|c r IH]; [done|]. intros H.
  cbn [find_match]. rewrite (calm_match_here _ H).
  destruct H as [_ H]. by rewrite IH.
Qed.

(** A failed anchored match at [c :: r] constrains the first two
    characters. *)
Lemma match_here_None_pair c d r :
  match_here (c :: d :: r) = None -> ~ (is_punct c = true /\ isspace d = true).
Proof.
  intros H [Hc Hd]. unfold match_here in H. simpl in H. rewrite Hc in H.
  destruct (is_punct d) eqn:E; [apply punct_not_space in E; congruence|].
  simpl in H. by rewrite Hd in H.
Qed.

Lemma find_match_None s : find_match s = None -> calm s.
Proof.
  induction s as [|c r IH]; [done|]. cbn [find_match].
  destruct (match_here (c :: r)) as [[p a]|] eqn:E; [done|].
  destruct (find_match r) as [[[pre p] a]|]; [done|]. intros _.
  split; [|by apply IH]. destruct r as [|d r']; [done|].
  by apply match_here_None_pair in E.
Qed.

Lemma find_match_Some s pre p after :
  find_match s = Some (pre, p, after) ->
  calm pre /\ ends_plain pre /\
  exists w, s = pre ++ p ++ w ++ after /\ p <> [] /\ w <> [] /\
            Forall (fun c => is_punct c = true) p /\
            Forall (fun c => isspace c = true) w /\
            not_space_first after.
Proof.
  revert pre. induction s as [|c r IH]; intros pre; [done|]. cbn [find_match].
  destruct (match_here (c :: r)) as [[p0 a0]|] eqn:E.
  - intros [= E1 E2 E3]. subst pre p0 a0. apply match_here_Some in E. repeat split; done.
  - destruct (find_match r) as [[[pre' p'] a']|] eqn:F; [|done].
    intros [= E1 E2 E3]. subst pre p' a'.
    destruct (IH _ eq_refl) as (C & P & w & -> & Hp & Hw & Ap & Aw & Ha).
    assert (G : forall d t, pre' ++ p ++ w ++ after = d :: t ->
                ~ (is_punct c = true /\ isspace d = true)).
    { intros d t Ed. rewrite Ed in E. by apply match_here_None_pair in E. }
    split; [|split].
    + simpl. split; [|done]. destruct pre' as [|d t]; [done|]. by apply (G d (t ++ p ++ w ++ after)).
    + unfold ends_plain. destruct pre' as [|d t].
      * simpl. destruct (is_punct c) eqn:Ec; [|done]. exfalso.
        assert (M : match_here ((c :: p) ++ w ++ after) = Some (c :: p, after)).
        { apply match_here_intro; try done. by constructor. }
        simpl in *. congruence.
      * by rewrite last_cons_cons.
    + exists w. repeat split; done.
Qed.

Lemma find_match_shorter s pre p after :
  find_match s = Some (pre, p, after) -> (length after < length s)%nat.
Proof.
  intros H. apply find_match_Some in H as (_ & _ & w & -> & Hp & Hw & _).
  rewrite !length_app. destruct p; [done|]. simpl. lia.
Qed.

(** A character that is neither punctuation nor white space ends the run
    inside the string, whatever follows. *)
Lemma take_while_app_stop f s x :
  (exists c, c ∈ s /\ f c = false) ->
  take_while f (s ++ x) = take_while f s /\
  drop_while f (s ++ x) = drop_while f s ++ x /\ drop_while f s <> [].
Proof.
  induction s as [|d r IH]; intros (c & Hin & Hc).
  - by apply elem_of_nil in Hin.
  - simpl. destruct (f d) eqn:E; [|done].
    apply elem_of_cons in Hin as [->|Hin]; [congruence|].
    destruct IH as (-> & -> & ?); eauto.
Qed.

Lemma match_here_app_None s x :
  s <> [] -> calm s -> ends_plain s -> match_here (s ++ x) = None.
Proof.
  intros Hne Hc Hp. pose proof (calm_match_here s Hc) as M.
  unfold match_here in *.
  assert (Hex : exists c, c ∈ s /\ is_punct c = false).
  { unfold ends_plain in Hp. destruct (last s) as [c|] eqn:L.
    - exists c. split; [|done]. apply list_elem_of_lookup. exists (pred (length s)).
      by rewrite <- last_lookup.
    - apply last_None in L. done. }
  destruct (take_while_app_stop is_punct s x Hex) as (-> & -> & Hd).
  destruct (take_while is_punct s) as [|c p]; [done|].
  destruct (drop_while is_punct s) as [|d t]; [done|]. simpl in *.
  destruct (isspace d); done.
Qed.

Lemma find_match_app b rest :
  calm b -> ends_plain b ->
  find_match (b ++ rest) =
    match find_match rest with
    | Some (pre, p, after) => Some (b ++ pre, p, after)
    | None => None
    end.
Proof.
  induction b as [|c r IH]; intros Hc Hp.
  - simpl. by destruct (find_match rest) as [[[? ?] ?]|].
  - change ((c :: r) ++ rest) with (c :: (r ++ rest)). cbn [find_match].
    change (c :: (r ++ rest)) with ((c :: r) ++ rest).
    rewrite match_here_app_None by done.
    rewrite IH.
    + by destruct (find_match rest) as [[[? ?] ?]|].
    + by destruct Hc.
    + unfold ends_plain in *. destruct r; [done|]. by rewrite last_cons_cons in Hp.
Qed.

Lemma find_match_intro b p w after :
  calm b -> ends_plain b -> p <> [] -> w <> [] ->
  Forall (fun c => is_punct c = true) p ->
  Forall (fun c => isspace c = true) w ->
  not_space_first after ->
  find_match (b ++ p ++ w ++ after) = Some (b, p, after).
Proof.
  intros Hc Hb Hp Hw Ap Aw Ha. rewrite find_match_app by done.
  assert (M : match_here (p ++ w ++ after) = Some (p, after))
    by (by apply match_here_intro).
  destruct p as [|c p']; [done|]. cbn [app find_match]. cbn [app] in M. rewrite M.
  by rewrite app_nil_r.
Qed.

(** ** [re.split] *)

Lemma re_split_fuel_enough fuel s :
  (length s <= fuel)%nat -> re_split_fuel fuel s = re_split s.
Proof.
  unfold re_split.
  assert (G : forall n m t, (length t <= n)%nat -> (length t <= m)%nat ->
                re_split_fuel n t = re_split_fuel m t).
  { induction n as [|n IH]; intros m t Hn Hm.
    - destruct t; [|simpl in Hn; lia]. destruct m; done.
    - destruct m as [|m].
      + destruct t; [done|simpl in Hm; lia].
      + simpl. destruct (find_match t) as [[[pre p] after]|] eqn:F; [|done].
        apply find_match_shorter in F. f_equal. f_equal. apply IH; lia. }
  intros H. apply G; [done|lia].
Qed.

Lemma re_split_None s : find_match s = None -> re_split s = [s].
Proof. unfold re_split. intros H. destruct (length s); simpl; by rewrite ?H. Qed.

Lemma re_split_Some s pre p after :
  find_match s = Some (pre, p, after) -> re_split s = pre :: p :: re_split after.
Proof.
  intros H. unfold re_split at 1. pose proof (find_match_shorter _ _ _ _ H) as L.
  destruct (length s) as [|n] eqn:E; [lia|]. simpl. rewrite H.
  f_equal. f_equal. apply re_split_fuel_enough. lia.
Qed.

Lemma re_split_nonempty s : re_split s <> [].
Proof. unfold re_split. destruct (length s); simpl; [done|]. by destruct (find_match s) as [[[? ?] ?]|]. Qed.

(** ** [strip] *)

Lemma lstrip_decomp s :
  exists w, s = w ++ lstrip s /\ Forall (fun c => isspace c = true) w /\
            not_space_first (lstrip s).
Proof.
  exists (take_while isspace s). unfold lstrip. split; [by rewrite take_drop_while|].
  split; [apply take_while_all|]. unfold not_space_first.
  destruct (drop_while isspace s) eqn:E; [done|]. by apply drop_while_head in E.
Qed.

Lemma rstrip_decomp s :
  exists w, s = rstrip s ++ w /\ Forall (fun c => isspace c = true) w /\
            (rstrip s = [] \/ ends_ink (rstrip s)).
Proof.
  exists (reverse (take_while isspace (reverse s))). unfold rstrip. split; [|split].
  - rewrite <- reverse_app, take_drop_while. by rewrite reverse_involutive.
  - apply Forall_reverse, take_while_all.
  - destruct (drop_while isspace (reverse s)) as [|c r] eqn:E; [by left|right].
    unfold ends_ink. rewrite last_reverse. simpl. by apply drop_while_head in E.
Qed.

Lemma lstrip_id s : not_space_first s -> lstrip s = s.
Proof. unfold lstrip. destruct s as [|c r]; simpl; [done|]. by intros ->. Qed.

Lemma rstrip_id s : ends_ink s -> rstrip s = s.
Proof.
  unfold ends_ink, rstrip. rewrite <- head_reverse. intros H.
  destruct (reverse s) as [|c r] eqn:E; [done|]. simpl in *. rewrite H.
  by rewrite <- E, reverse_involutive.
Qed.

Lemma starts_ink_first s : starts_ink s -> not_space_first s.
Proof. by destruct s. Qed.

Lemma strip_id s : starts_ink s -> ends_ink s -> strip s = s.
Proof. intros H1 H2. unfold strip. rewrite lstrip_id by by apply starts_ink_first. by apply rstrip_id. Qed.

Lemma strip_decomp s :
  exists w1 w2, s = w1 ++ strip s ++ w2 /\
    Forall (fun c => isspace c = true) w1 /\ Forall (fun c => isspace c = true) w2 /\
    (strip s = [] \/ (starts_ink (strip s) /\ ends_ink (strip s))).
Proof.
  destruct (lstrip_decomp s) as (w1 & E1 & A1 & F).
  destruct (rstrip_decomp (lstrip s)) as (w2 & E2 & A2 & L).
  exists w1, w2. unfold strip. split; [by rewrite <- E2|]. split; [done|]. split; [done|].
  destruct L as [L|L]; [by left|right]. split; [|done].
  unfold starts_ink. destruct (rstrip (lstrip s)) as [|c r] eqn:E; [done|].
  rewrite E2 in F. done.
Qed.

Lemma strip_calm s : calm s -> calm (strip s).
Proof.
  intros H. destruct (strip_decomp s) as (w1 & w2 & E & _).
  rewrite E in H. by apply calm_app_r, calm_app_l in H.
Qed.

Lemma last_app_cons_some (a : str) c : last (a ++ [c]) = Some c.
Proof. by rewrite last_snoc. Qed.

Lemma strip_ends_plain s : calm s -> ends_plain s -> ends_plain (strip s).
Proof.
  intros Hc Hp. destruct (strip_decomp s) as (w1 & w2 & E & _ & A2 & _).
  revert E. generalize (strip s). intros t E. subst s.
  unfold ends_plain in *. destruct (last t) as [c|] eqn:L; [|done].
  destruct w2 as [|d w2'].
  - rewrite app_nil_r in Hp. rewrite last_app, L in Hp. done.
  - apply last_Some in L as [t' ->]. inversion A2; subst.
    destruct (is_punct c) eqn:Ec; [|done]. exfalso.
    rewrite <- !app_assoc in Hc. apply calm_app_r in Hc.
    by apply (calm_boundary t' c d w2').
Qed.

(** ** [join] *)

Lemma join_cons2 sep (c c' : str) l : join sep (c :: c' :: l) = c ++ sep ++ join sep (c' :: l).
Proof. done. Qed.

Lemma join_starts c l : starts_ink c -> starts_ink (join space (c :: l)).
Proof.
  destruct l as [|c' l]; [done|]. rewrite join_cons2. unfold starts_ink.
  by destruct c.
Qed.

Lemma join_ends l : l <> [] -> Forall ends_ink l -> ends_ink (join space l).
Proof.
  induction l as [|c l IH]; [done|]. intros _ H. inversion H as [|? ? Hc Hl]; subst.
  destruct l as [|c' l']; [done|]. rewrite join_cons2.
  unfold ends_ink in *. rewrite !last_app.
  specialize (IH ltac:(done) Hl). by destruct (last (join space (c' :: l'))).
Qed.

(** ** The reconstruction loop, two elements at a time *)

Lemma rebuild_step_acc sentences acc i :
  rebuild_step sentences acc i = acc ++ rebuild_step sentences [] i.
Proof. unfold rebuild_step. destruct (strip (get sentences i)); [by rewrite app_nil_r|done]. Qed.

Lemma foldl_rebuild_acc sentences acc l :
  foldl (rebuild_step sentences) acc l = acc ++ foldl (rebuild_step sentences) [] l.
Proof.
  revert acc. induction l as [|i l IH]; intros acc; simpl; [by rewrite app_nil_r|].
  rewrite IH, (IH (rebuild_step sentences [] i)), rebuild_step_acc. by rewrite app_assoc.
Qed.

Lemma rebuild_step_shift pre p rest acc i :
  rebuild_step (pre :: p :: rest) acc (2 + i) = rebuild_step rest acc i.
Proof. unfold rebuild_step, get. simpl. done. Qed.

Lemma foldl_rebuild_shift pre p rest acc l :
  foldl (rebuild_step (pre :: p :: rest)) acc ((fun i => 2 + i)%nat <$> l)
  = foldl (rebuild_step rest) acc l.
Proof.
  revert acc. induction l as [|i l IH]; intros acc; [done|].
  cbn [fmap list_fmap foldl]. by rewrite rebuild_step_shift, IH.
Qed.

Lemma range_by_two_step n :
  range_by_two (2 + n) = 0%nat :: ((fun i => 2 + i)%nat <$> range_by_two n).
Proof.
  unfold range_by_two. replace ((2 + n + 1) / 2)%nat with (S ((n + 1) / 2)).
  - cbn [seq fmap list_fmap]. f_equal. rewrite <- seq_shift, <- !list_fmap_compose.
    apply list_fmap_ext. intros _ k _. simpl. lia.
  - replace (2 + n + 1)%nat with (1 * 2 + (n + 1))%nat by lia.
    rewrite Nat.div_add_l by done. lia.
Qed.

Lemma rebuild_single t :
  rebuild [t] = match strip t with [] => [] | _ :: _ => [strip t] end.
Proof. unfold rebuild. simpl. by destruct (strip t). Qed.

Lemma rebuild_pair pre p rest :
  rest <> [] ->
  rebuild (pre :: p :: rest) =
    match strip pre with [] => [] | _ :: _ => [strip (strip pre ++ p)] end ++ rebuild rest.
Proof.
  intros Hne. unfold rebuild.
  assert (L : List.last (pre :: p :: rest) [] = List.last rest []).
  { destruct rest; [done|]. done. }
  rewrite L. clear L.
  replace (length (pre :: p :: rest) mod 2)%nat with (length rest mod 2)%nat.
  2:{ cbn [length]. replace (S (S (length rest))) with (length rest + 1 * 2)%nat by lia.
      by rewrite Nat.Div0.mod_add. }
  replace (length (pre :: p :: rest) - 1)%nat with (2 + (length rest - 1))%nat.
  2:{ destruct rest; [done|]. simpl. lia. }
  rewrite range_by_two_step. cbn [foldl].
  rewrite foldl_rebuild_shift, foldl_rebuild_acc.
  set (body := foldl (rebuild_step rest) [] (range_by_two (length rest - 1))).
  assert (H0 : rebuild_step (pre :: p :: rest) [] 0 =
               match strip pre with [] => [] | _ :: _ => [strip (strip pre ++ p)] end).
  { unfold rebuild_step, get. simpl. by destruct (strip pre). }
  rewrite H0. destruct (length rest mod 2)%nat as [|[|?]]; try done.
  destruct (strip (List.last rest [])); [done|]. by rewrite app_assoc.
Qed.

(** ** The shape of the reconstructed sentence list *)

Lemma closed_is_tail c : closed_sentence c -> tail_sentence c.
Proof.
  intros (b & p & -> & Sb & Eb & Pb & Cb & Hp & Ap). split; [|split].
  - unfold starts_ink in *. by destruct b.
  - unfold ends_ink. rewrite last_app. destruct (last p) as [x|] eqn:L.
    + apply punct_not_space. rewrite Forall_forall in Ap. apply Ap.
      apply last_Some in L as [p' ->]. apply elem_of_app. right. by apply list_elem_of_singleton.
    + by apply last_None in L.
  - apply calm_join; [done|by apply calm_all_punct|].
    intros x d Lx _ [Hx _]. unfold ends_plain in Pb. rewrite Lx in Pb. congruence.
Qed.

Lemma shape_all_tail l : shape l -> Forall tail_sentence l.
Proof. induction 1; constructor; try done. by apply closed_is_tail. Qed.

Lemma shape_sublist l k : shape l -> sublist k l -> shape k.
Proof.
  intros H. revert k. induction H as [|t Ht|c l Hc Hl IH]; intros k Hk.
  - apply sublist_nil_r in Hk as ->. constructor.
  - apply sublist_cons_r in Hk as [Hk|(k' & -> & Hk)];
      apply sublist_nil_r in Hk as ->; by constructor.
  - apply sublist_cons_r in Hk as [Hk|(k' & -> & Hk)]; [by apply IH|].
    constructor; [done|by apply IH].
Qed.

Lemma strip_piece_closed pre p :
  calm pre -> ends_plain pre -> strip pre <> [] ->
  p <> [] -> Forall (fun x => is_punct x = true) p ->
  closed_sentence (strip pre ++ p) /\ strip (strip pre ++ p) = strip pre ++ p.
Proof.
  intros Hc Hp Hne Pn Ap.
  destruct (strip_decomp pre) as (_ & _ & _ & _ & _ & [E|[S1 S2]]); [done|].
  assert (C : closed_sentence (strip pre ++ p)).
  { exists (strip pre), p. repeat split; try done.
    - by apply strip_ends_plain.
    - by apply strip_calm. }
  split; [done|]. destruct (closed_is_tail _ C) as (T1 & T2 & _). by apply strip_id.
Qed.

Lemma full_sentences_shape text : shape (full_sentences_of text).
Proof.
  unfold full_sentences_of.
  remember (length text) as n eqn:En. revert text En.
  induction n as [n IH] using lt_wf_ind. intros text ->.
  destruct (find_match text) as [[[pre p] after]|] eqn:F.
  - rewrite (re_split_Some _ _ _ _ F), rebuild_pair by apply re_split_nonempty.
    pose proof (find_match_shorter _ _ _ _ F) as L.
    specialize (IH _ L after eq_refl).
    apply find_match_Some in F as (Hc & Hp & w & _ & Pn & _ & Ap & _).
    destruct (strip pre) as [|x b] eqn:E; [done|]. rewrite <- E.
    destruct (strip_piece_closed pre p) as [C ->]; try done; [by rewrite E|].
    by constructor.
  - rewrite (re_split_None _ F), rebuild_single.
    destruct (strip text) as [|x b] eqn:E; [constructor|]. rewrite <- E.
    destruct (strip_decomp text) as (_ & _ & _ & _ & _ & [E'|[S1 S2]]); [congruence|].
    apply shape_last. repeat split; try done. by apply strip_calm, find_match_None.
Qed.

Lemma tail_sentence_alone t : tail_sentence t -> full_sentences_of t = [t].
Proof.
  intros (S1 & S2 & C). unfold full_sentences_of.
  rewrite re_split_None by by apply calm_find_match.
  rewrite rebuild_single, strip_id by done. destruct t; done.
Qed.

(** Splitting the joined sentences gives the sentences back. *)
Lemma resplit_joined l : shape l -> l <> [] -> full_sentences_of (join space l) = l.
Proof.
  induction 1 as [|t Ht|c l Hc Hl IH]; intros Hne; [done| |].
  - simpl. by apply tail_sentence_alone.
  - destruct l as [|c' l']; [by apply tail_sentence_alone, closed_is_tail|].
    rewrite join_cons2. specialize (IH ltac:(done)).
    pose proof (shape_all_tail _ Hl) as Tl. inversion Tl as [|? ? (S1 & _) _]; subst.
    destruct Hc as (b & p & -> & Sb & Eb & Pb & Cb & Pn & Ap).
    assert (F : find_match (b ++ p ++ space ++ join space (c' :: l'))
                = Some (b, p, join space (c' :: l'))).
    { apply find_match_intro; try done.
      - by repeat constructor.
      - apply starts_ink_first, join_starts. done. }
    unfold full_sentences_of in *. rewrite <- app_assoc.
    rewrite (re_split_Some _ _ _ _ F), rebuild_pair by apply re_split_nonempty.
    rewrite IH. rewrite strip_id by done.
    destruct b as [|x b']; [done|].
    assert (strip ((x :: b') ++ p) = (x :: b') ++ p) as ->; [|done].
    destruct (closed_is_tail ((x :: b') ++ p)) as (T1 & T2 & _); [|by apply strip_id].
    exists (x :: b'), p.
    exact (conj eq_refl (conj Sb (conj Eb (conj Pb (conj Cb (conj Pn Ap)))))).
Qed.

(** ** The deduplication loop *)

Section Dedupe.
Variable lower : str -> str.

Lemma dedupe_acc l seen acc : dedupe lower l seen acc = acc ++ dedupe lower l seen [].
Proof.
  revert seen acc. induction l as [|s r IH]; intros seen acc; cbn [dedupe app fmap list_fmap]; [by rewrite app_nil_r|].
  destruct (_ && _); [|done].
  rewrite IH, (IH _ ([] ++ [s])). by rewrite app_assoc.
Qed.

Lemma dedupe_sublist l seen : sublist (dedupe lower l seen []) l.
Proof.
  revert seen. induction l as [|s r IH]; intros seen; cbn [dedupe app fmap list_fmap]; [done|].
  destruct (_ && _).
  - rewrite (dedupe_acc r _ [_]). cbn [dedupe app fmap list_fmap]. by apply sublist_skip.
  - by apply sublist_cons.
Qed.

Lemma dedupe_fixed l seen :
  dedupe lower (dedupe lower l seen []) seen [] = dedupe lower l seen [].
Proof.
  revert seen. induction l as [|s r IH]; intros seen; cbn [dedupe app fmap list_fmap]; [done|].
  destruct (_ && _) eqn:E; [|done].
  rewrite (dedupe_acc r _ [s]). cbn [dedupe app]. rewrite E.
  rewrite (dedupe_acc _ _ [s]). cbn [app]. by rewrite IH.
Qed.

Lemma dedupe_long l seen s :
  s ∈ dedupe lower l seen [] -> (5 < length (normalize lower s))%nat.
Proof.
  revert seen. induction l as [|x r IH]; intros seen; cbn [dedupe app fmap list_fmap]; [by intros ?%elem_of_nil|].
  destruct (_ && _) eqn:E; [|by apply IH].
  rewrite (dedupe_acc r _ [_]). cbn [dedupe app fmap list_fmap]. intros [->|H]%elem_of_cons; [|by apply (IH _ H)].
  apply andb_true_iff in E as [_ E]. by apply Nat.ltb_lt in E.
Qed.

Lemma dedupe_fresh l seen s :
  s ∈ dedupe lower l seen [] -> normalize lower s ∉ seen.
Proof.
  revert seen. induction l as [|x r IH]; intros seen; cbn [dedupe app fmap list_fmap]; [by intros ?%elem_of_nil|].
  destruct (_ && _) eqn:E; [|by apply IH].
  rewrite (dedupe_acc r _ [_]). cbn [dedupe app fmap list_fmap]. intros [->|H]%elem_of_cons.
  - apply andb_true_iff in E as [E _]. apply andb_true_iff in E as [_ E].
    by apply bool_decide_eq_true in E.
  - apply IH in H. set_solver.
Qed.

Lemma dedupe_NoDup l seen : NoDup (normalize lower <$> dedupe lower l seen []).
Proof.
  revert seen. induction l as [|x r IH]; intros seen; cbn [dedupe app fmap list_fmap]; [constructor|].
  destruct (_ && _) eqn:E; [|by apply IH].
  rewrite (dedupe_acc r _ [_]). cbn [dedupe app fmap list_fmap]. constructor; [|by apply IH].
  intros (s & Es & Hs)%list_elem_of_fmap. apply dedupe_fresh in Hs.
  rewrite <- Es in Hs. set_solver.
Qed.
(** A sentence that is long enough and whose normalized form differs
    from that of every sentence before it is kept. *)
Lemma dedupe_keeps (pre post : list str) (s : str) (seen : gset str) :
  (5 < length (normalize lower s))%nat ->
  normalize lower s ∉ seen ->
  (forall x, x ∈ pre -> normalize lower x <> normalize lower s) ->
  s ∈ dedupe lower (pre ++ s :: post) seen [].
Proof.
  intros Hlen. revert seen. induction pre as [|x pre IH]; intros seen Hs Hpre.
  - cbn [app dedupe].
    assert (C : bool_decide (normalize lower s ≠ []) && bool_decide (normalize lower s ∉ seen)
                && (5 <? length (normalize lower s))%nat = true).
    { rewrite !andb_true_iff. split; [split|].
      - apply bool_decide_eq_true. intros E. rewrite E in Hlen. simpl in Hlen. lia.
      - by apply bool_decide_eq_true.
      - by apply Nat.ltb_lt. }
    rewrite C, (dedupe_acc post _ [s]). apply list_elem_of_here.
  - cbn [app dedupe].
    assert (Hx : normalize lower x <> normalize lower s) by (apply Hpre, list_elem_of_here).
    assert (Hr : forall y, y ∈ pre -> normalize lower y <> normalize lower s)
      by (intros y Hy; apply Hpre; by apply list_elem_of_further).
    destruct (_ && _).
    + rewrite (dedupe_acc _ _ [x]). apply list_elem_of_further. apply IH; [|done].
      rewrite elem_of_union, elem_of_singleton. intros [E|E]; [by apply Hx|done].
    + by apply IH.
Qed.
End Dedupe.

(** ** The cleaner *)

Section CleanerTheorems.
Variable lower : str -> str.

Local Abbreviation clean := (_clean_repetitive_text lower).

Lemma strip_strip s : strip (strip s) = strip s.
Proof.
  destruct (strip_decomp s) as (_ & _ & _ & _ & _ & [E|[S1 S2]]).
  - by rewrite E.
  - by apply strip_id.
Qed.

Lemma clean_stripped t :
  t <> [] -> strip t = t ->
  clean t = match join space (cleaned_of lower t) with [] => t | _ :: _ => join space (cleaned_of lower t) end.
Proof. intros Hne E. unfold _clean_repetitive_text. rewrite E. by destruct t. Qed.

Lemma cleaned_shape t : shape (cleaned_of lower t).
Proof. eapply shape_sublist; [apply full_sentences_shape|apply dedupe_sublist]. Qed.

Lemma cleaned_join t :
  cleaned_of lower t <> [] ->
  join space (cleaned_of lower t) <> [] /\
  strip (join space (cleaned_of lower t)) = join space (cleaned_of lower t) /\
  cleaned_of lower (join space (cleaned_of lower t)) = cleaned_of lower t.
Proof.
  intros Hne. pose proof (cleaned_shape t) as Sh.
  pose proof (shape_all_tail _ Sh) as Tl.
  assert (S1 : starts_ink (join space (cleaned_of lower t))).
  { destruct (cleaned_of lower t) as [|c l]; [done|].
    inversion Tl as [|? ? (? & _) _]; subst. by apply join_starts. }
  assert (S2 : ends_ink (join space (cleaned_of lower t))).
  { apply join_ends; [done|]. eapply Forall_impl; [exact Tl|]. by intros ? (_ & ? & _). }
  split; [|split].
  - intros E. rewrite E in S1. done.
  - by apply strip_id.
  - unfold cleaned_of at 1. rewrite resplit_joined by done.
    unfold cleaned_of. apply dedupe_fixed.
Qed.

(** C3.  Cleaning a cleaned string changes nothing. *)
Theorem clean_idempotent (s : str) : clean (clean s) = clean s.
Proof.
  destruct s as [|x s']; [done|].
  assert (Hs : clean (x :: s') =
               match strip (x :: s') with
               | [] => []
               | _ :: _ =>
                   match join space (cleaned_of lower (strip (x :: s'))) with
                   | [] => strip (x :: s')
                   | _ :: _ => join space (cleaned_of lower (strip (x :: s')))
                   end
               end).
  { unfold _clean_repetitive_text. by destruct (strip (x :: s')). }
  rewrite Hs. clear Hs.
  pose proof (strip_strip (x :: s')) as Et. revert Et.
  generalize (strip (x :: s')). intros t Et.
  destruct t as [|y t'] eqn:E; [done|]. rewrite <- E in *.
  assert (Hne : t <> []) by (by rewrite E).
  destruct (join space (cleaned_of lower t)) as [|z r] eqn:J.
  - rewrite clean_stripped, J by done. done.
  - rewrite <- J.
    assert (Hc : cleaned_of lower t <> []) by (intros Hc; by rewrite Hc in J).
    destruct (cleaned_join t Hc) as (N & S & C).
    rewrite clean_stripped, C by done. by rewrite J.
Qed.

(** The result: the kept sentences joined by single spaces, or the
    stripped input when no sentence is kept. *)
Lemma clean_joins_kept (text : str) :
  cleaned_of lower (strip text) <> [] ->
  clean text = join space (cleaned_of lower (strip text)).
Proof.
  intros Hc. destruct (cleaned_join _ Hc) as (N & _ & _).
  unfold _clean_repetitive_text. destruct text as [|x t]; [done|].
  destruct (strip (x :: t)); [done|].
  by destruct (join space (cleaned_of lower _)).
Qed.

Lemma clean_falls_back (text : str) :
  cleaned_of lower (strip text) = [] -> clean text = strip text.
Proof.
  intros Hc. unfold _clean_repetitive_text. destruct text as [|x t]; [done|].
  destruct (strip (x :: t)); [done|]. by rewrite Hc.
Qed.

(** C2 (as amended).  The cleaned list never contains a sentence whose
    normalized form has fewer than 6 characters, whether or not the
    sentence occurred before; the result is the cleaned list joined by
    single spaces when that list is not empty, and the stripped input,
    unchanged, when it is empty. *)
Theorem short_sentences_dropped (text sentence : str) :
  (length (normalize lower sentence) < 6)%nat ->
  (sentence ∉ cleaned_of lower (strip text)) /\
  (cleaned_of lower (strip text) <> [] ->
   clean text = join space (cleaned_of lower (strip text))) /\
  (cleaned_of lower (strip text) = [] -> clean text = strip text).
Proof.
  intros Hlen. split; [|split].
  - intros Hin. apply dedupe_long in Hin. lia.
  - apply clean_joins_kept.
  - apply clean_falls_back.
Qed.

(** Order of first occurrence and absence of duplicates, for every
    input. *)
Lemma cleaned_sublist_NoDup (text : str) :
  sublist (cleaned_of lower text) (full_sentences_of text) /\
  NoDup (normalize lower <$> cleaned_of lower text).
Proof. split; [apply dedupe_sublist|apply dedupe_NoDup]. Qed.

(** Every first occurrence of a long sentence is kept. *)
Lemma cleaned_keeps_first (text : str) (pre post : list str) (s : str) :
  full_sentences_of text = pre ++ s :: post ->
  (5 < length (normalize lower s))%nat ->
  (forall x, x ∈ pre -> normalize lower x <> normalize lower s) ->
  s ∈ cleaned_of lower text.
Proof.
  intros E Hlen Hpre. unfold cleaned_of. rewrite E.
  apply dedupe_keeps; [done|apply not_elem_of_empty|done].
Qed.
End CleanerTheorems.

(** C2, witness: ["Hi."] is too short to be kept. *)
Lemma short_sentences_dropped_witness :
  (length (normalize ascii_lower (lit "Hi.")) < 6)%nat /\
  (lit "Hi." ∉ cleaned_of ascii_lower (strip (lit "Hi. This is long enough."))).
Proof.
  assert (H : (length (normalize ascii_lower (lit "Hi.")) < 6)%nat) by (vm_compute; lia).
  split; [exact H|].
  exact (proj1 (short_sentences_dropped ascii_lower (lit "Hi. This is long enough.")
                  (lit "Hi.") H)).
Defined.

(** C2, counterexample: the sentence ["Hi."] occurs once, its normalized
    form has 3 characters, and it is removed from the output. *)
Lemma short_unique_sentence_removed :
  let text := lit "Hi. This is long enough." in
  full_sentences_of text = [lit "Hi."; lit "This is long enough."] /\
  (length (normalize ascii_lower (lit "Hi.")) < 6)%nat /\
  cleaned_of ascii_lower text = [lit "This is long enough."] /\
  clean_ascii text = lit "This is long enough.".
Proof. vm_compute. repeat split; lia. Qed.

(** C1, counterexample: on ["A. A. B."] the result is not ["A. B."]. *)
Lemma clean_A_A_B_not_deduplicated :
  clean_ascii (lit "A. A. B.") <> lit "A. B.".
Proof. by vm_compute. Qed.

(** C1 (as amended).  On ["A. A. B."] every sentence is shorter than 6
    normalized characters, the cleaned list is empty and the input is
    returned unchanged.  Among the sentences of at least 6 normalized
    characters duplicates are removed by case-insensitive,
    white-space-collapsed comparison and first occurrences are kept in
    their order: for every input, a sentence of at least 6 normalized
    characters whose normalized form differs from that of every sentence
    before it is kept, the kept sentences are a subsequence of the
    sentence list, no two of them have the same normalized form, and the
    result is the kept sentences joined by single spaces (the stripped
    input when none is kept). *)
Theorem clean_examples :
  full_sentences_of (lit "A. A. B.") = [lit "A."; lit "A."; lit "B."] /\
  cleaned_of ascii_lower (lit "A. A. B.") = [] /\
  clean_ascii (lit "A. A. B.") = lit "A. A. B." /\
  clean_ascii (lit "Alpha one. ALPHA  ONE. Beta two.") = lit "Alpha one. Beta two." /\
  forall lower text,
    sublist (cleaned_of lower text) (full_sentences_of text) /\
    NoDup (normalize lower <$> cleaned_of lower text) /\
    (forall pre s post,
       full_sentences_of text = pre ++ s :: post ->
       (5 < length (normalize lower s))%nat ->
       (forall x, x ∈ pre -> normalize lower x <> normalize lower s) ->
       s ∈ cleaned_of lower text) /\
    (cleaned_of lower (strip text) <> [] ->
     _clean_repetitive_text lower text = join space (cleaned_of lower (strip text))) /\
    (cleaned_of lower (strip text) = [] ->
     _clean_repetitive_text lower text = strip text).
Proof.
  split; [by vm_compute|]. split; [by vm_compute|]. split; [by vm_compute|].
  split; [by vm_compute|]. intros lower text.
  destruct (cleaned_sublist_NoDup lower text) as [H1 H2].
  split; [done|]. split; [done|].
  split; [intros pre s post; apply cleaned_keeps_first|].
  split; [apply clean_joins_kept|apply clean_falls_back].
Qed.

End CleanerFacts.

(** * Properties of the PDF editor *)

Module PdfEditorFacts.
Import PyStr Exn PdfEditor Samples.

Lemma normalize_index_high len (i : Z) :
  (Z.of_nat len <= i)%Z -> normalize_index len i = inl IndexError.
Proof.
  intros H. unfold normalize_index.
  destruct (Z.ltb_spec i 0); [lia|].
  destruct (Z.ltb_spec i 0); [lia|]. destruct (Z.leb_spec (Z.of_nat len) i); [done|lia].
Qed.

Lemma normalize_index_negative len (i : Z) :
  (- Z.of_nat len <= i < 0)%Z ->
  normalize_index len i = inr (len - Z.to_nat (- i))%nat.
Proof.
  intros H. unfold normalize_index.
  destruct (Z.ltb_spec i 0); [|lia].
  destruct (Z.ltb_spec (Z.of_nat len + i) 0); [lia|].
  destruct (Z.leb_spec (Z.of_nat len) (Z.of_nat len + i)); [lia|].
  simpl. f_equal. lia.
Qed.

Lemma normalize_index_in_range len (i : nat) :
  (i < len)%nat -> normalize_index len (Z.of_nat i) = inr i.
Proof.
  intros H. unfold normalize_index.
  destruct (Z.ltb_spec (Z.of_nat i) 0); [lia|].
  destruct (Z.ltb_spec (Z.of_nat i) 0); [lia|].
  destruct (Z.leb_spec (Z.of_nat len) (Z.of_nat i)); [lia|].
  simpl. by rewrite Nat2Z.id.
Qed.

Lemma getitem_at_high {A} (l : list A) (i : Z) :
  (Z.of_nat (length l) <= i)%Z -> getitem_at l i = inl IndexError.
Proof. intros H. unfold getitem_at. by rewrite normalize_index_high. Qed.

Lemma getitem_at_negative {A} (l : list A) (i : Z) :
  (- Z.of_nat (length l) <= i < 0)%Z ->
  exists x, l !! (length l - Z.to_nat (- i))%nat = Some x /\
            getitem_at l i = inr ((length l - Z.to_nat (- i))%nat, x).
Proof.
  intros H. unfold getitem_at. rewrite normalize_index_negative by done. simpl.
  destruct (lookup_lt_is_Some_2 l (length l - Z.to_nat (- i))%nat) as [x Hx]; [lia|].
  exists x. by rewrite Hx.
Qed.

Lemma getitem_in_range {A} (l : list A) (i : nat) x :
  l !! i = Some x -> getitem l (Z.of_nat i) = inr x.
Proof.
  intros H. unfold getitem, getitem_at.
  rewrite normalize_index_in_range by by eapply lookup_lt_Some.
  simpl. by rewrite H.
Qed.

Section EditorFacts.
Context {page overlay : Type}.
Variable merge_page : page -> overlay -> page.
Variable rotate : page -> Z -> page.
Variable page_text : page -> str.
Variable draw : primitive -> result overlay.

(** The loop of [delete_page] never fails on positions inside the
    document; it appends the pages whose position differs from
    [page_num]. *)
Lemma delete_loop_spec (self : PDFEditor page) (page_num : Z) (a m : nat) :
  (a + m <= length (reader self))%nat ->
  delete_loop self page_num (seq a m) =
    (inr true,
     {| reader := reader self;
        writer := writer self ++
                  omap (fun i => if decide (Z.of_nat i = page_num) then None
                                 else reader self !! i) (seq a m);
        num_pages := num_pages self |}).
Proof.
  revert self a. induction m as [|m IH]; intros self a H.
  - simpl. rewrite app_nil_r. by destruct self.
  - cbn [seq delete_loop omap list_omap]. destruct (decide (Z.of_nat a = page_num)) as [E|E].
    + rewrite IH by lia. done.
    + destruct (lookup_lt_is_Some_2 (reader self) a) as [p Hp]; [lia|].
      rewrite (getitem_in_range _ _ _ Hp), Hp. rewrite IH by (simpl; lia).
      simpl. by rewrite <- app_assoc.
Qed.

Lemma omap_lookup_all (l : list page) (page_num : Z) :
  (Z.of_nat (length l) <= page_num)%Z ->
  omap (fun i => if decide (Z.of_nat i = page_num) then None else l !! i)
    (seq 0 (length l)) = l.
Proof.
  intros H.
  assert (G : forall (k : list page) (pre : list page),
             omap (fun i => if decide (Z.of_nat i = page_num) then None
                            else (pre ++ k) !! i) (seq (length pre) (length k)) = k
             \/ (Z.of_nat (length (pre ++ k)) > page_num)%Z).
  { induction k as [|x k IHk]; intros pre; [by left|].
    destruct (IHk (pre ++ [x])) as [E|E].
    - destruct (decide (Z.of_nat (length (pre ++ x :: k)) <= page_num)%Z) as [L|L]; [left|right; lia].
      cbn [length seq omap list_omap].
      rewrite length_app in L. simpl in L.
      destruct (decide (Z.of_nat (length pre) = page_num)); [lia|].
      rewrite list_lookup_middle by done. f_equal.
      rewrite <- app_assoc in E. simpl in E. rewrite length_app in E. simpl in E.
      by rewrite Nat.add_1_r in E.
    - right. by rewrite <- app_assoc in E. }
  destruct (G l []) as [E|E]; [done|]. simpl in E. lia.
Qed.

Lemma omap_lookup_delete (l : list page) (k : nat) :
  omap (fun i => if decide (Z.of_nat i = Z.of_nat k) then None else l !! i)
    (seq 0 (length l)) = delete k l.
Proof.
  assert (G : forall (t pre : list page),
             omap (fun i => if decide (Z.of_nat i = Z.of_nat k) then None
                            else (pre ++ t) !! i) (seq (length pre) (length t))
             = if decide (length pre <= k)%nat then delete (k - length pre)%nat t else t).
  { induction t as [|x t IHt]; intros pre.
    - simpl. by destruct (decide _).
    - cbn [length seq omap list_omap]. specialize (IHt (pre ++ [x])).
      rewrite <- app_assoc, length_app in IHt. simpl in IHt.
      rewrite Nat.add_1_r in IHt. rewrite IHt. clear IHt.
      rewrite list_lookup_middle by done.
      destruct (decide (Z.of_nat (length pre) = Z.of_nat k)) as [E|E].
      + apply Nat2Z.inj in E. subst k.
        rewrite decide_False by lia. rewrite decide_True by lia.
        by rewrite Nat.sub_diag.
      + destruct (decide (length pre <= k)%nat) as [L|L].
        * rewrite decide_True by lia.
          replace (k - length pre)%nat with (S (k - S (length pre))) by lia. done.
        * by rewrite decide_False by lia. }
  specialize (G l []). simpl in G. by rewrite Nat.sub_0_r in G.
Qed.

(** On any freshly opened document, [delete_page] with an index inside
    the document leaves in the writer the source without that page. *)
Lemma delete_page_in_range (source : list page) (k : nat) :
  delete_page (__init__ source) (Z.of_nat k) =
    (inr true, {| reader := source; writer := delete k source;
                  num_pages := length source |}).
Proof.
  unfold delete_page, __init__. cbn [num_pages]. rewrite delete_loop_spec by (simpl; lia).
  cbn [reader writer num_pages app]. by rewrite omap_lookup_delete.
Qed.

Lemma delete_page_out_of_range (self : PDFEditor page) (page_num : Z) :
  num_pages self = length (reader self) ->
  (Z.of_nat (length (reader self)) <= page_num)%Z ->
  delete_page self page_num =
    (inr true, {| reader := reader self; writer := writer self ++ reader self;
                  num_pages := num_pages self |}).
Proof.
  intros Hn H. unfold delete_page. rewrite delete_loop_spec by (rewrite Hn; simpl; lia).
  by rewrite Hn, omap_lookup_all.
Qed.

(** C8.  On a freshly opened 5-page document, [delete_page] with index 2
    succeeds and leaves in the writer the pages 0, 1, 3, 4 of the source
    in that order; saving writes exactly this 4-page document. *)
Theorem delete_page_2_of_5 (p0 p1 p2 p3 p4 : page) (writable : str -> bool)
    (disk : gmap str (list page)) (output_path : str) :
  let source := [p0; p1; p2; p3; p4] in
  let edited := {| reader := source; writer := [p0; p1; p3; p4]; num_pages := 5 |} in
  delete_page (__init__ source) 2 = (inr true, edited) /\
  length (writer edited) = 4%nat /\
  writer edited = delete 2%nat source /\
  save writable edited disk output_path =
    if writable output_path then (inr true, <[output_path := [p0; p1; p3; p4]]> disk)
    else (inl IOError, disk).
Proof.
  intros source edited. split; [|by repeat split].
  exact (delete_page_in_range source 2).
Qed.

(** C9 (as amended).  When the page index is at least the page count,
    [add_text], [add_image], [add_rectangle] and [add_line] (once the
    overlay has been drawn), [rotate_page] and [extract_text] raise
    [IndexError] and leave the editor as it was; none of them has access
    to the files on disk.  [delete_page] does not fail: it returns [True]
    after appending every page of the source to the writer. *)
Theorem index_out_of_range (self : PDFEditor page) (page_num : Z) :
  (Z.of_nat (length (reader self)) <= page_num)%Z ->
  (forall text x y font_size color font_name o,
     draw (DrawString text x y font_size color font_name) = inr o ->
     add_text merge_page draw self page_num text x y font_size color font_name
     = (inl IndexError, self)) /\
  (forall image_path x y width height o,
     draw (DrawImage image_path x y width height) = inr o ->
     add_image merge_page draw self page_num image_path x y width height
     = (inl IndexError, self)) /\
  (forall x y width height fill_color stroke_color stroke_width o,
     draw (DrawRect x y width height fill_color stroke_color stroke_width) = inr o ->
     add_rectangle merge_page draw self page_num x y width height fill_color stroke_color
       stroke_width = (inl IndexError, self)) /\
  (forall x1 y1 x2 y2 color width o,
     draw (DrawLine x1 y1 x2 y2 color width) = inr o ->
     add_line merge_page draw self page_num x1 y1 x2 y2 color width
     = (inl IndexError, self)) /\
  (forall angle, rotate_page rotate self page_num angle = (inl IndexError, self)) /\
  extract_text page_text self page_num = (inl IndexError, self) /\
  (num_pages self = length (reader self) ->
   delete_page self page_num =
     (inr true, {| reader := reader self; writer := writer self ++ reader self;
                   num_pages := num_pages self |})).
Proof.
  intros H.
  assert (G : forall what o, draw what = inr o ->
                draw_on merge_page draw self page_num what = (inl IndexError, self)).
  { intros what o D. unfold draw_on, overlay_page. by rewrite D, getitem_at_high. }
  repeat split.
  - intros. by eapply G.
  - intros. by eapply G.
  - intros. by eapply G.
  - intros. by eapply G.
  - intros angle. unfold rotate_page. by rewrite getitem_at_high.
  - unfold extract_text, getitem. by rewrite getitem_at_high.
  - intros Hn. by apply delete_page_out_of_range.
Qed.

(** C10.  A negative page index [n] with [|n|] at most the page count is
    accepted by the drawing operations, by [rotate_page] and by
    [extract_text]: it never raises [IndexError], and the page addressed
    is the one at position [count + n], so that [-1] is the last page.
    With the overlay drawn, each drawing operation returns [True], merges
    the overlay into that page and appends it to the writer;
    [rotate_page] does the same with the rotated page when the angle is a
    multiple of 90, and otherwise raises the [ValueError] of the angle;
    [extract_text] returns the text of that page. *)
Theorem negative_index_accepted (self : PDFEditor page) (n : Z) :
  (- Z.of_nat (length (reader self)) <= n < 0)%Z ->
  let j := (length (reader self) - Z.to_nat (- n))%nat in
  exists p,
    reader self !! j = Some p /\
    (n = (-1)%Z -> last (reader self) = Some p) /\
    (forall what o, draw what = inr o ->
       draw_on merge_page draw self n what =
         (inr true, {| reader := <[j := merge_page p o]> (reader self);
                       writer := writer self ++ [merge_page p o];
                       num_pages := num_pages self |})) /\
    (forall text x y font_size color font_name o,
       draw (DrawString text x y font_size color font_name) = inr o ->
       add_text merge_page draw self n text x y font_size color font_name =
         (inr true, {| reader := <[j := merge_page p o]> (reader self);
                       writer := writer self ++ [merge_page p o];
                       num_pages := num_pages self |})) /\
    (forall image_path x y width height o,
       draw (DrawImage image_path x y width height) = inr o ->
       add_image merge_page draw self n image_path x y width height =
         (inr true, {| reader := <[j := merge_page p o]> (reader self);
                       writer := writer self ++ [merge_page p o];
                       num_pages := num_pages self |})) /\
    (forall x y width height fill_color stroke_color stroke_width o,
       draw (DrawRect x y width height fill_color stroke_color stroke_width) = inr o ->
       add_rectangle merge_page draw self n x y width height fill_color stroke_color
         stroke_width =
         (inr true, {| reader := <[j := merge_page p o]> (reader self);
                       writer := writer self ++ [merge_page p o];
                       num_pages := num_pages self |})) /\
    (forall x1 y1 x2 y2 color width o,
       draw (DrawLine x1 y1 x2 y2 color width) = inr o ->
       add_line merge_page draw self n x1 y1 x2 y2 color width =
         (inr true, {| reader := <[j := merge_page p o]> (reader self);
                       writer := writer self ++ [merge_page p o];
                       num_pages := num_pages self |})) /\
    (forall what e, draw what = inl e ->
       draw_on merge_page draw self n what = (inl e, self)) /\
    (forall angle, (angle mod 90 = 0)%Z ->
       rotate_page rotate self n angle =
         (inr true, {| reader := <[j := rotate p angle]> (reader self);
                       writer := writer self ++ [rotate p angle];
                       num_pages := num_pages self |})) /\
    (forall angle, (angle mod 90 <> 0)%Z ->
       rotate_page rotate self n angle = (inl ValueError, self)) /\
    extract_text page_text self n = (inr (page_text p), self).
Proof.
  intros H j. destruct (getitem_at_negative (reader self) n H) as (p & Hp & G).
  fold j in Hp, G. exists p.
  assert (D : forall what o, draw what = inr o ->
       draw_on merge_page draw self n what =
         (inr true, {| reader := <[j := merge_page p o]> (reader self);
                       writer := writer self ++ [merge_page p o];
                       num_pages := num_pages self |})).
  { intros what o E. unfold draw_on, overlay_page. by rewrite E, G. }
  split; [done|]. split.
  { intros ->. rewrite last_lookup. rewrite <- Hp. f_equal. unfold j. simpl. lia. }
  split; [done|].
  split; [intros; unfold add_text; by apply D|].
  split; [intros; unfold add_image; by apply D|].
  split; [intros; unfold add_rectangle; by apply D|].
  split; [intros; unfold add_line; by apply D|].
  split; [intros what e E; unfold draw_on; by rewrite E|].
  split; [intros angle Ha; unfold rotate_page; by rewrite G, decide_True|].
  split; [intros angle Ha; unfold rotate_page; by rewrite G, decide_False|].
  unfold extract_text, getitem. by rewrite G.
Qed.

End EditorFacts.

(** C9, witness: index 5 on a 5-page document. *)
Lemma index_out_of_range_witness :
  (Z.of_nat (length (reader demo_editor)) <= 5)%Z /\
  extract_text demo_text demo_editor 5 = (inl IndexError, demo_editor).
Proof.
  assert (H : (Z.of_nat (length (reader demo_editor)) <= 5)%Z) by (simpl; lia).
  split; [exact H|].
  exact (proj1 (proj2 (proj2 (proj2 (proj2 (proj2
    (index_out_of_range demo_merge demo_rotate demo_text demo_draw demo_editor 5 H))))))).
Defined.

(** C9, counterexample: [delete_page] with index 7 on a 5-page document
    raises nothing and copies all five pages. *)
Lemma delete_page_out_of_range_succeeds :
  delete_page demo_editor 7 =
    (inr true, {| reader := [10; 11; 12; 13; 14]%nat; writer := [10; 11; 12; 13; 14]%nat;
                  num_pages := 5 |}) /\
  (forall e, fst (delete_page demo_editor 7) <> inl e).
Proof. split; [reflexivity|]. intros e. vm_compute. discriminate. Qed.

(** C10, witness: index -1 on a 5-page document addresses page 4. *)
Lemma negative_index_accepted_witness :
  (- Z.of_nat (length (reader demo_editor)) <= -1 < 0)%Z /\
  exists p, reader demo_editor !! 4%nat = Some p /\
            extract_text demo_text demo_editor (-1) = (inr (demo_text p), demo_editor).
Proof.
  assert (H : (- Z.of_nat (length (reader demo_editor)) <= -1 < 0)%Z) by (simpl; lia).
  split; [exact H|].
  destruct (negative_index_accepted demo_merge demo_rotate demo_text demo_draw demo_editor (-1) H)
    as (p & Hp & _ & _ & _ & _ & _ & _ & _ & _ & _ & Ht).
  exists p. split; [exact Hp|exact Ht].
Defined.

End PdfEditorFacts.

(** * Properties of the section grouper *)

Module GrouperFacts.
Import PyStr Pandas Grouper Samples.

Lemma group_snoc (events : list record) (event : record) :
  _group_events_by_section (events ++ [event])
  = group_step (_group_events_by_section events) event.
Proof. unfold _group_events_by_section. by rewrite foldl_app. Qed.

(** The bucket of a name holds, in source order, the events filed under
    that name; a name without events has no bucket. *)
Lemma group_lookup (events : list record) (name : str) :
  _group_events_by_section events !! name =
    match filter (fun e => section_of e = Some name) events with
    | [] => None
    | l => Some l
    end.
Proof.
  induction events as [|event events IH] using rev_ind; [done|].
  rewrite group_snoc, filter_app. unfold group_step.
  assert (F : filter (fun e => section_of e = Some name) [event]
              = if decide (section_of event = Some name) then [event] else []).
  { rewrite filter_cons, filter_nil. by destruct (decide _). }
  rewrite F. clear F. unfold section_of.
  destruct (default (Text (lit "OTHER ACTIVITIES")) (event !! lit "Department/Section"))
    as [|nm] eqn:E.
  - rewrite decide_False by done. by rewrite app_nil_r.
  - destruct (decide (nm = name)) as [->|Hne].
    + rewrite decide_True by done. rewrite lookup_alter_eq.
      destruct (_group_events_by_section events !! name) as [l0|] eqn:L.
      * rewrite L. destruct (filter _ events); [done|]. injection IH as ->. done.
      * rewrite lookup_insert_eq. by destruct (filter _ events).
    + rewrite decide_False by congruence. rewrite app_nil_r.
      rewrite lookup_alter_ne by done.
      destruct (_group_events_by_section events !! nm); [done|].
      by rewrite lookup_insert_ne.
Qed.

(** C4 (as amended).  An event of the list whose record has no
    [Department/Section] key is filed under ["OTHER ACTIVITIES"]; an event
    whose field holds a name is filed under that name; an event whose
    field is present but null is filed under no section at all. *)
Theorem grouped_by_section (events : list record) (event : record) :
  event ∈ events ->
  match event !! lit "Department/Section" with
  | None =>
      exists l, _group_events_by_section events !! lit "OTHER ACTIVITIES" = Some l /\ event ∈ l
  | Some (Text name) =>
      exists l, _group_events_by_section events !! name = Some l /\ event ∈ l
  | Some NaN =>
      forall name l, _group_events_by_section events !! name = Some l -> event ∉ l
  end.
Proof.
  intros Hin.
  assert (G : forall name, section_of event = Some name ->
            exists l, _group_events_by_section events !! name = Some l /\ event ∈ l).
  { intros name Hs. rewrite group_lookup.
    assert (Hf : event ∈ filter (fun e => section_of e = Some name) events)
      by (by apply list_elem_of_filter).
    destruct (filter _ events) as [|x l] eqn:E; [by apply elem_of_nil in Hf|].
    by exists (x :: l). }
  destruct (event !! lit "Department/Section") as [[|name]|] eqn:E.
  - intros name l Hl Hin'. rewrite group_lookup in Hl.
    assert (Hf : event ∈ filter (fun e => section_of e = Some name) events).
    { destruct (filter _ events); [done|]. by injection Hl as ->. }
    apply list_elem_of_filter in Hf as [Hs _]. unfold section_of in Hs. by rewrite E in Hs.
  - apply G. unfold section_of. by rewrite E.
  - apply G. unfold section_of. by rewrite E.
Qed.

(** C4, witness: a record without the key goes to the default bucket. *)
Lemma grouped_by_section_witness :
  talk ∈ [talk] /\
  exists l, _group_events_by_section [talk] !! lit "OTHER ACTIVITIES" = Some l /\ talk ∈ l.
Proof.
  assert (H : talk ∈ [talk]) by (apply list_elem_of_singleton; reflexivity).
  split; [exact H|]. exact (grouped_by_section [talk] talk H).
Defined.

(** C4, counterexample: an event with a title and a null section is in
    no bucket; in particular there is no ["OTHER ACTIVITIES"] bucket. *)
Lemma null_section_event_dropped :
  talk_without_section !! lit "Event Title" = Some (Text (lit "Talk")) /\
  talk_without_section !! lit "Department/Section" = Some NaN /\
  _group_events_by_section [talk_without_section] !! lit "OTHER ACTIVITIES" = None /\
  forall name, _group_events_by_section [talk_without_section] !! name = None.
Proof.
  split; [by vm_compute|]. split; [by vm_compute|].
  assert (G : forall name, _group_events_by_section [talk_without_section] !! name = None).
  { intros name. rewrite group_lookup. rewrite filter_cons, filter_nil.
    rewrite decide_False; [done|]. by vm_compute. }
  split; [apply G|exact G].
Qed.

End GrouperFacts.

(** * Properties of the section order and of the page numbers *)

Module PagesFacts.
Import PyStr Exn Pandas Pages Samples MoreSamples.

(** ** The order on [str] *)

Lemma str_leb_total (a b : str) : str_leb a b = true \/ str_leb b a = true.
Proof.
  revert b. induction a as [|x a IH]; intros [|y b]; simpl; auto.
  destruct (N.ltb_spec x y), (N.ltb_spec y x); auto; try lia.
  assert (x = y) as -> by lia. rewrite N.eqb_refl. apply IH.
Qed.

Lemma str_leb_trans (a b c : str) :
  str_leb a b = true -> str_leb b c = true -> str_leb a c = true.
Proof.
  revert b c. induction a as [|x a IH]; intros [|y b] [|z c]; simpl; try done.
  destruct (N.ltb_spec x y), (N.ltb_spec y z), (N.ltb_spec x z); try done; try lia;
    destruct (N.eqb_spec x y), (N.eqb_spec y z), (N.eqb_spec x z); try done; try lia.
  apply IH.
Qed.

Lemma str_leb_antisym (a b : str) :
  str_leb a b = true -> str_leb b a = true -> a = b.
Proof.
  revert b. induction a as [|x a IH]; intros [|y b]; simpl; try done.
  destruct (N.ltb_spec x y), (N.ltb_spec y x), (N.eqb_spec x y), (N.eqb_spec y x);
    try done; try lia.
  subst y. intros H1 H2. f_equal. by apply IH.
Qed.

#[global] Instance str_le_total : Total str_le.
Proof. intros a b. apply str_leb_total. Qed.
#[global] Instance str_le_trans : Transitive str_le.
Proof. intros a b c. apply str_leb_trans. Qed.
#[global] Instance str_le_antisym : AntiSymm (=) str_le.
Proof. intros a b. apply str_leb_antisym. Qed.

(** ** [sorted] *)

Lemma mapM_as {A} (get : value -> option A) (mk : A -> value) :
  (forall v a, get v = Some a <-> v = mk a) ->
  forall l k, mapM get l = Some k <-> l = mk <$> k.
Proof.
  intros H l k. rewrite mapM_Some. split.
  - induction 1 as [|v a l k Hv _ IH]; [done|]. simpl. f_equal; [by apply H|done].
  - intros ->. induction k as [|a k IH]; constructor; [by apply H|done].
Qed.

Lemma as_text_spec v s : as_text v = Some s <-> v = VText s.
Proof. destruct v; simpl; split; congruence. Qed.
Lemma as_number_spec v q : as_number v = Some q <-> v = VNumber q.
Proof. destruct v; simpl; split; congruence. Qed.
Lemma as_timestamp_spec v t : as_timestamp v = Some t <-> v = VTimestamp t.
Proof. destruct v; simpl; split; congruence. Qed.

(** A successful sort returns the elements in the order [value_le]. *)
Lemma sorted_inr (l ss : list value) :
  sorted l = inr ss -> ss ≡ₚ l /\ StronglySorted value_le ss.
Proof.
  unfold sorted.
  destruct (mapM as_text l) as [names|] eqn:E1.
  { intros [= <-]. apply (mapM_as _ _ as_text_spec) in E1 as ->. split.
    - by rewrite merge_sort_Permutation.
    - apply (StronglySorted_fmap VText str_le value_le); [by constructor|].
      apply StronglySorted_merge_sort; apply _. }
  destruct (mapM as_number l) as [numbers|] eqn:E2.
  { intros [= <-]. apply (mapM_as _ _ as_number_spec) in E2 as ->. split.
    - by rewrite merge_sort_Permutation.
    - apply (StronglySorted_fmap VNumber Qcanon.Qcle value_le); [by constructor|].
      apply StronglySorted_merge_sort; apply _. }
  destruct (mapM as_timestamp l) as [times|] eqn:E3; [|done].
  intros [= <-]. apply (mapM_as _ _ as_timestamp_spec) in E3 as ->. split.
  - by rewrite merge_sort_Permutation.
  - apply (StronglySorted_fmap VTimestamp Z.le value_le); [by constructor|].
    apply StronglySorted_merge_sort; apply _.
Qed.

Lemma sorted_texts (l : list value) (names : list str) :
  mapM as_text l = Some names -> sorted l = inr (VText <$> merge_sort str_le names).
Proof. unfold sorted. by intros ->. Qed.

(** Sorting succeeds exactly on the lists of one kind, and its only
    error is [TypeError]. *)
Lemma sorted_ok_iff (l : list value) :
  (exists ss, sorted l = inr ss) <->
  Forall (is_Some ∘ as_text) l \/ Forall (is_Some ∘ as_number) l
  \/ Forall (is_Some ∘ as_timestamp) l.
Proof.
  rewrite <- !mapM_is_Some. unfold sorted.
  destruct (mapM as_text l); [split; [by left|by eexists]|].
  destruct (mapM as_number l); [split; [right; by left|by eexists]|].
  destruct (mapM as_timestamp l); [split; [right; by right|by eexists]|].
  split; [by intros [? ?]|]. by intros [[? ?]|[[? ?]|[? ?]]].
Qed.

Lemma sorted_error (l : list value) (e : exn) : sorted l = inl e -> e = TypeError.
Proof.
  unfold sorted. destruct (mapM as_text l); [done|].
  destruct (mapM as_number l); [done|]. destruct (mapM as_timestamp l); [done|].
  by intros [= <-].
Qed.

(** ** The keys of the section dictionary *)

Lemma keys_Forall (sections : gmap value (list record)) (P : value -> Prop) :
  Forall P (elements (dom sections)) <-> forall v, is_Some (sections !! v) -> P v.
Proof.
  rewrite Forall_forall. split; intros H v Hv; apply H.
  - by apply elem_of_elements, elem_of_dom.
  - by apply elem_of_dom, elem_of_elements.
Qed.

Lemma sorted_keys_perm (sections : gmap value (list record)) (ss : list value) :
  sorted_keys sections = inr ss -> ss ≡ₚ elements (dom sections).
Proof. intros H. by apply sorted_inr in H as [? _]. Qed.

Lemma sorted_keys_elem (sections : gmap value (list record)) (ss : list value) (v : value) :
  sorted_keys sections = inr ss -> v ∈ ss <-> is_Some (sections !! v).
Proof.
  intros H. rewrite (sorted_keys_perm _ _ H), elem_of_elements. apply elem_of_dom.
Qed.

Lemma sorted_keys_NoDup (sections : gmap value (list record)) (ss : list value) :
  sorted_keys sections = inr ss -> NoDup ss.
Proof. intros H. rewrite (sorted_keys_perm _ _ H). apply NoDup_elements. Qed.

Lemma sorted_keys_length (sections : gmap value (list record)) (ss : list value) :
  sorted_keys sections = inr ss -> length ss = size sections.
Proof.
  intros H. rewrite (Permutation_length (sorted_keys_perm _ _ H)).
  by rewrite <- size_dom.
Qed.

(** With text names only, the sort and the rendering both succeed. *)
Lemma text_sections_render (sections : gmap value (list record)) :
  (forall v, is_Some (sections !! v) -> is_Some (as_text v)) ->
  exists names,
    sorted_keys sections = inr (VText <$> names) /\
    StronglySorted str_le names /\
    document_pages sections =
      inr ([EditorialBoardPage; VisionMissionPage;
            ContentsPage (contents_rows names (section_page_map (VText <$> names)))]
           ++ section_pages sections names ++ [ContactPage]).
Proof.
  intros H. apply (keys_Forall sections (is_Some ∘ as_text)) in H.
  apply mapM_is_Some in H as [names0 E].
  pose proof (sorted_texts _ _ E) as S.
  exists (merge_sort str_le names0). split; [done|]. split.
  - apply StronglySorted_merge_sort; apply _.
  - unfold document_pages, sorted_keys. rewrite S. cbn [bind]. unfold text_names.
    assert (M : mapM as_text (VText <$> merge_sort str_le names0)
                = Some (merge_sort str_le names0))
      by (by apply (mapM_as _ _ as_text_spec)).
    by rewrite M.
Qed.

(** With a name that is not a text, the rendering raises. *)
Lemma other_sections_fail (sections : gmap value (list record)) (v : value) :
  is_Some (sections !! v) -> as_text v = None ->
  exists e, document_pages sections = inl e.
Proof.
  intros Hv Ht. unfold document_pages.
  destruct (sorted_keys sections) as [e|ss] eqn:S; [by eexists|]. cbn [bind].
  unfold text_names. destruct (mapM as_text ss) as [names|] eqn:M; [|by eexists].
  apply (mapM_as _ _ as_text_spec) in M as ->.
  apply (sorted_keys_elem _ _ v S) in Hv.
  apply list_elem_of_fmap in Hv as (s & -> & _). done.
Qed.

(** ** The page map *)

Lemma section_page_map_snoc (l : list value) (name : value) :
  section_page_map (l ++ [name])
  = <[name := (start_section_page + length l)%nat]> (section_page_map l).
Proof.
  unfold section_page_map, enumerate. rewrite imap_app, foldl_app. simpl.
  by rewrite Nat.add_0_r.
Qed.

Lemma section_page_map_absent (l : list value) (name : value) :
  name ∉ l -> section_page_map l !! name = None.
Proof.
  induction l as [|x l IH] using rev_ind; [done|].
  rewrite section_page_map_snoc. intros H. rewrite not_elem_of_app in H.
  destruct H as [H1 H2]. rewrite lookup_insert_ne; [by apply IH|].
  intros ->. apply H2. by apply list_elem_of_singleton.
Qed.

Lemma section_page_map_lookup (l : list value) (i : nat) (name : value) :
  NoDup l -> l !! i = Some name ->
  section_page_map l !! name = Some (start_section_page + i)%nat.
Proof.
  induction l as [|x l IH] using rev_ind; [done|].
  rewrite section_page_map_snoc. intros ND Hi.
  apply NoDup_app in ND as (ND & Hx & _).
  destruct (decide (i < length l)%nat) as [Lt|Ge].
  - rewrite lookup_app_l in Hi by done.
    rewrite lookup_insert_ne; [by apply IH|].
    intros ->. apply (Hx name); [by eapply list_elem_of_lookup_2|by apply list_elem_of_singleton].
  - pose proof (lookup_lt_Some _ _ _ Hi) as Lt. rewrite length_app in Lt. simpl in Lt.
    assert (i = length l) as -> by lia.
    rewrite list_lookup_middle in Hi by done. injection Hi as ->.
    by rewrite lookup_insert_eq.
Qed.

Lemma section_page_map_inv (l : list value) (name : value) (p : nat) :
  NoDup l -> section_page_map l !! name = Some p ->
  exists i, l !! i = Some name /\ p = (start_section_page + i)%nat.
Proof.
  intros ND Hp. destruct (decide (name ∈ l)) as [Hin|Hout].
  - apply list_elem_of_lookup in Hin as [i Hi]. exists i. split; [done|].
    rewrite (section_page_map_lookup l i name ND Hi) in Hp. by injection Hp.
  - by rewrite section_page_map_absent in Hp.
Qed.

(** C6 (as amended).  [sorted(sections.keys())] succeeds exactly when the
    section names are all texts, all numbers or all timestamps, and
    raises [TypeError] otherwise.  When it succeeds, with [ss] its
    result: [ss] lists each section once, texts in lexicographic order of
    code points and numbers and timestamps in the order of their values;
    the page map sends the name of rank [i] to [4 + i] and nothing else;
    page numbers increase strictly with the rank, so they are pairwise
    distinct.  When all names are texts the document is rendered: the
    contents table and the section pages are emitted in the order of
    [ss], the section of rank [i] being the [a4] block number [4 + i];
    with a name that is not a text the rendering raises.  For ["Alpha"],
    ["Beta"], ["Gamma"] the pages are 4, 5, 6. *)
Theorem page_index (sections : gmap value (list record)) :
  ((exists ss, sorted_keys sections = inr ss) <->
   (forall v, is_Some (sections !! v) -> is_Some (as_text v)) \/
   (forall v, is_Some (sections !! v) -> is_Some (as_number v)) \/
   (forall v, is_Some (sections !! v) -> is_Some (as_timestamp v))) /\
  (forall e, sorted_keys sections = inl e -> e = TypeError) /\
  (forall ss, sorted_keys sections = inr ss ->
     let page_map := section_page_map ss in
     (forall name, name ∈ ss <-> is_Some (sections !! name)) /\
     NoDup ss /\ StronglySorted value_le ss /\
     (forall i name, ss !! i = Some name -> page_map !! name = Some (4 + i)%nat) /\
     (forall name p, page_map !! name = Some p ->
        exists i, ss !! i = Some name /\ p = (4 + i)%nat) /\
     (forall i j ni nj, ss !! i = Some ni -> ss !! j = Some nj -> (i < j)%nat ->
        exists pi pj, page_map !! ni = Some pi /\ page_map !! nj = Some pj /\ (pi < pj)%nat)) /\
  ((forall v, is_Some (sections !! v) -> is_Some (as_text v)) ->
   exists names pages,
     sorted_keys sections = inr (VText <$> names) /\
     StronglySorted str_le names /\
     document_pages sections = inr pages /\
     forall i name, names !! i = Some name ->
       (exists table, pages !! 2%nat = Some (ContentsPage table) /\
                      table !! i = Some ((i + 1)%nat, name, Some (4 + i)%nat)) /\
       pages !! (3 + i)%nat
         = Some (SectionPage name (default [] (sections !! VText name)))) /\
  (forall v, is_Some (sections !! v) -> as_text v = None ->
     exists e, document_pages sections = inl e) /\
  sorted_keys three_sections
    = inr [VText (lit "Alpha"); VText (lit "Beta"); VText (lit "Gamma")] /\
  section_page_map [VText (lit "Alpha"); VText (lit "Beta"); VText (lit "Gamma")]
    = {[ VText (lit "Alpha") := 4%nat; VText (lit "Beta") := 5%nat;
         VText (lit "Gamma") := 6%nat ]}.
Proof.
  split; [|split; [|split; [|split; [|split; [|split]]]]].
  - unfold sorted_keys. rewrite sorted_ok_iff.
    by rewrite <- !(keys_Forall sections).
  - intros e. apply sorted_error.
  - intros ss Hss page_map.
    pose proof (sorted_keys_NoDup _ _ Hss) as ND.
    assert (L : forall i name, ss !! i = Some name -> page_map !! name = Some (4 + i)%nat)
      by (intros i name; by apply section_page_map_lookup).
    split; [intros name; by apply sorted_keys_elem|]. split; [done|].
    split; [by apply sorted_inr in Hss as [_ ?]|]. split; [done|].
    split; [intros name p; by apply section_page_map_inv|].
    intros i j ni nj Hi Hj Lt. exists (4 + i)%nat, (4 + j)%nat.
    split; [by apply L|]. split; [by apply L|lia].
  - intros Ht. destruct (text_sections_render sections Ht) as (names & Hss & Hsorted & Hdoc).
    eexists names, _. split; [done|]. split; [done|]. split; [exact Hdoc|].
    intros i name Hi.
    pose proof (sorted_keys_NoDup _ _ Hss) as ND.
    assert (Hv : (VText <$> names) !! i = Some (VText name))
      by (by rewrite list_lookup_fmap, Hi).
    split.
    + eexists. split; [reflexivity|].
      unfold contents_rows, enumerate. rewrite list_lookup_fmap, list_lookup_imap, Hi.
      simpl. by rewrite (section_page_map_lookup _ i _ ND Hv).
    + unfold section_pages.
      change (3 + i)%nat with (length [EditorialBoardPage; VisionMissionPage;
        ContentsPage (contents_rows names (section_page_map (VText <$> names)))] + i)%nat.
      rewrite lookup_app_r by lia. rewrite Nat.add_comm, Nat.add_sub.
      rewrite lookup_app_l by (rewrite length_fmap; by eapply lookup_lt_Some).
      by rewrite list_lookup_fmap, Hi.
  - intros v. apply other_sections_fail.
  - by vm_compute.
  - by vm_compute.
Qed.

(** C6, counterexample: with the names ["Alpha"] and 9 the sort raises
    [TypeError], so there is no page index and nothing is rendered; with
    the names 10 and 9 the order is that of the values, 9 before 10, not
    that of their texts, and the rendering raises. *)
Lemma page_index_fails_on_other_names :
  is_Some (mixed_sections !! VText (lit "Alpha")) /\
  is_Some (mixed_sections !! VNumber (Qc_of_Z 9)) /\
  sorted_keys mixed_sections = inl TypeError /\
  document_pages mixed_sections = inl TypeError /\
  sorted_keys numbered_sections = inr [VNumber (Qc_of_Z 9); VNumber (Qc_of_Z 10)] /\
  str_leb (lit "10") (lit "9") = true /\ str_leb (lit "9") (lit "10") = false /\
  document_pages numbered_sections = inl UndefinedError.
Proof.
  split; [vm_compute; eauto|]. split; [vm_compute; eauto|].
  split; [by vm_compute|]. split; [by vm_compute|].
  split; [|split; [by vm_compute|split; by vm_compute]].
  vm_compute. f_equal.
  f_equal; [f_equal; by apply Qcanon.Qc_is_canon|].
  f_equal. f_equal. by apply Qcanon.Qc_is_canon.
Qed.

End PagesFacts.

(** * Properties of the image resolver *)

Module ImagesFacts.
Import PyStr Images Samples.

Lemma embedded_lookup (fs : files) (self_image_paths : gmap str str) (key : str) :
  (_convert_images_to_base64 fs self_image_paths).1 !! key
  = self_image_paths !! key ≫= embed_entry fs (header_paths fs) key.
Proof. unfold _convert_images_to_base64. simpl. apply map_lookup_imap. Qed.

(** The path references are those of the header images that exist. *)
Lemma header_paths_lookup (fs : files) (key path : str) :
  (key, path) ∈ header_keys ->
  header_paths fs !! key = if path_exists fs path then Some path else None.
Proof.
  intros H. unfold header_paths, header_keys in *. cbn [foldl].
  unfold header_step. cbn [fst snd].
  set (p1 := path_join [lit "static"; lit "images"; lit "college_logo.png"]) in *.
  set (p2 := path_join [lit "static"; lit "images"; lit "orbits_logo.png"]) in *.
  set (p3 := path_join [lit "static"; lit "images"; lit "naac_badge.png"]) in *.
  set (p4 := path_join [lit "static"; lit "images"; lit "vision.png"]) in *.
  repeat (apply elem_of_cons in H as [H|H]; [injection H as -> ->|]);
    [..|by apply elem_of_nil in H];
    destruct (path_exists fs p1), (path_exists fs p2), (path_exists fs p3),
      (path_exists fs p4); by vm_compute.
Qed.

Lemma header_paths_only (fs : files) (key p : str) :
  header_paths fs !! key = Some p ->
  (key, p) ∈ header_keys /\ path_exists fs p = true.
Proof.
  unfold header_paths, header_keys. cbn [foldl]. unfold header_step. cbn [fst snd].
  set (p1 := path_join [lit "static"; lit "images"; lit "college_logo.png"]).
  set (p2 := path_join [lit "static"; lit "images"; lit "orbits_logo.png"]).
  set (p3 := path_join [lit "static"; lit "images"; lit "naac_badge.png"]).
  set (p4 := path_join [lit "static"; lit "images"; lit "vision.png"]).
  assert (B1 : to_slashes (path_join [lit "static"; lit "images"; basename p1]) = p1)
    by by vm_compute.
  assert (B2 : to_slashes (path_join [lit "static"; lit "images"; basename p2]) = p2)
    by by vm_compute.
  assert (B3 : to_slashes (path_join [lit "static"; lit "images"; basename p3]) = p3)
    by by vm_compute.
  assert (B4 : to_slashes (path_join [lit "static"; lit "images"; basename p4]) = p4)
    by by vm_compute.
  rewrite B1, B2, B3, B4.
  destruct (path_exists fs p1) eqn:E1, (path_exists fs p2) eqn:E2,
    (path_exists fs p3) eqn:E3, (path_exists fs p4) eqn:E4;
    repeat (rewrite lookup_insert; destruct (decide _) as [<-|?]);
    rewrite ?lookup_empty; intros [= <-]; (split; [|done]);
    repeat first [by apply list_elem_of_here | apply list_elem_of_further].
Qed.

(** C7 (as amended).  No key receives both a path reference and an
    inline payload.  A header key whose static file exists receives the
    path reference and never an inline payload, whatever the caller
    supplies.  A header key whose static file does not exist receives no
    path reference and is handled like any other key: it receives the
    inline payload of the file the caller maps it to, when that file
    exists and encodes to a non-empty payload. *)
Theorem header_path_wins (fs : files) (self_image_paths : gmap str str) (key : str) :
  let embedded_images := (_convert_images_to_base64 fs self_image_paths).1 in
  let image_paths := (_convert_images_to_base64 fs self_image_paths).2 in
  ~ (is_Some (image_paths !! key) /\ is_Some (embedded_images !! key)) /\
  (forall path, (key, path) ∈ header_keys -> path_exists fs path = true ->
     image_paths !! key = Some path /\ embedded_images !! key = None) /\
  (forall path supplied c encoded,
     (key, path) ∈ header_keys -> path_exists fs path = false ->
     self_image_paths !! key = Some supplied -> path_exists fs supplied = true ->
     _encode_image fs supplied = Some (c :: encoded) ->
     image_paths !! key = None /\ embedded_images !! key = Some (c :: encoded)).
Proof.
  cbv zeta. rewrite embedded_lookup.
  change ((_convert_images_to_base64 fs self_image_paths).2) with (header_paths fs).
  split; [|split].
  - intros [Hp He]. revert He.
    match goal with |- context [mbind _ ?o] => destruct o as [path|] end;
      simpl; [|by intros [? ?]].
    unfold embed_entry. rewrite decide_True by done. by intros [? ?].
  - intros path Hk Hx. rewrite (header_paths_lookup fs key path Hk), Hx.
    split; [done|].
    match goal with |- context [mbind _ ?o] => destruct o as [supplied|] end; [|done].
    simpl. unfold embed_entry. rewrite (header_paths_lookup fs key path Hk), Hx.
    by rewrite decide_True by done.
  - intros path supplied c encoded Hk Hx Hs Hsx He.
    rewrite (header_paths_lookup fs key path Hk), Hx.
    split; [done|]. rewrite embedded_lookup, Hs. simpl. unfold embed_entry.
    rewrite (header_paths_lookup fs key path Hk), Hx.
    rewrite decide_False by (by intros [? ?]). by rewrite Hsx, He.
Qed.

(** C7, counterexample: the header key [college_logo] receives an inline
    payload. *)
Lemma header_key_inlined :
  (lit "college_logo", lit "static/images/college_logo.png") ∈ header_keys /\
  (_convert_images_to_base64 uploads_only caller_logo).1 !! lit "college_logo"
    = Some (lit "aGVsbG8=") /\
  (_convert_images_to_base64 uploads_only caller_logo).2 !! lit "college_logo" = None.
Proof.
  split; [apply list_elem_of_here|]. split; by vm_compute.
Qed.

End ImagesFacts.

(** * Properties of the loader *)

Module LoaderFacts.
Import PyStr Exn Pandas Loader Usable Samples.

Lemma positions_from_nonempty (i : nat) (name : str) (cols : list str) :
  name ∈ cols -> positions_from i name cols <> [].
Proof.
  revert i. induction cols as [|c r IH]; intros i H; [by apply elem_of_nil in H|].
  simpl. destruct (decide (c = name)); [done|].
  apply elem_of_cons in H as [->|H]; [done|]. by apply IH.
Qed.

Lemma dropna_ok (name : str) (df : DataFrame) :
  name ∈ columns df -> exists df', dropna name df = inr df'.
Proof.
  intros H. unfold dropna, positions.
  pose proof (positions_from_nonempty 0 name _ H) as N.
  destruct (positions_from 0 name (columns df)); [done|]. eauto.
Qed.

Lemma records_of_ok (name : str) (df : DataFrame) :
  name ∈ columns df -> exists l, records_of name df = inr l.
Proof.
  intros H. unfold records_of. destruct (dropna_ok name df H) as [df' ->]. simpl. eauto.
Qed.

Lemma row_get_ok (df : DataFrame) (row : list cell) (name : str) :
  name ∈ columns df -> exists c, row_get df row name = inr c.
Proof.
  intros H. unfold row_get, positions.
  pose proof (positions_from_nonempty 0 name _ H) as N.
  destruct (positions_from 0 name (columns df)); [done|]. eauto.
Qed.

Lemma field_values_ok (df : DataFrame) (todo : list (list cell)) (acc : record) :
  lit "Field" ∈ columns df -> lit "Value" ∈ columns df ->
  exists r, field_values df todo acc = inr r.
Proof.
  intros HF HV. revert acc. induction todo as [|row rest IH]; intros acc; [by eexists|].
  cbn [field_values].
  destruct (row_get_ok df row _ HF) as [f ->]. cbn [bind].
  destruct f as [|key]; [apply IH|].
  destruct (row_get_ok df row _ HV) as [v ->]. cbn [bind]. apply IH.
Qed.

Lemma has_columns_spec (wb : workbook) (sheet : str) (names : list str)
    (relabel : DataFrame -> DataFrame) :
  has_columns wb sheet names relabel = true ->
  forall df, wb !! sheet = Some df -> forall n, n ∈ names -> n ∈ columns (relabel df).
Proof.
  unfold has_columns. intros H df E n Hn. rewrite E in H.
  rewrite forallb_forall in H. apply list_elem_of_In in Hn.
  apply H in Hn. by apply bool_decide_eq_true in Hn.
Qed.

Lemma read_excel_present (wb : workbook) (name : str) (df : DataFrame) :
  wb !! name = Some df -> read_excel (Some wb) name = inr df.
Proof. intros H. unfold read_excel. simpl. by rewrite H. Qed.

Lemma read_excel_absent (wb : workbook) (name : str) :
  wb !! name = None -> read_excel (Some wb) name = inl (SheetNotFound name).
Proof. intros H. unfold read_excel. simpl. by rewrite H. Qed.

Lemma read_excel_unreadable (name : str) : read_excel None name = inl FileError.
Proof. done. Qed.

(** One step through the sequence of reads: case analysis on the first
    computation that has not been evaluated yet. *)
Ltac load_step :=
  match goal with
  | |- context [Exn.bind ?r _] => destruct r eqn:?; cbn [Exn.bind]
  end.

Ltac load_step_in H :=
  match type of H with
  | context [Exn.bind ?r _] => destruct r eqn:?; cbn [Exn.bind] in H; [discriminate H|]
  end.

Lemma load_unreadable : _load_data None = inl (ErrorLoadingExcel FileError).
Proof. done. Qed.

Lemma load_absent (wb : workbook) (name : str) :
  name ∈ unconditional_sheets -> wb !! name = None ->
  exists cause, _load_data (Some wb) = inl (ErrorLoadingExcel cause).
Proof.
  intros Hin Habs. pose proof (read_excel_absent wb name Habs) as R.
  unfold unconditional_sheets in Hin.
  unfold _load_data, load_body, ExcelFile. cbn [Exn.bind].
  repeat (apply elem_of_cons in Hin as [->|Hin]); [..|by apply elem_of_nil in Hin];
    rewrite R; cbn [Exn.bind]; repeat load_step; eauto.
Qed.

Lemma load_failure_shape (excel : option workbook) (f : failure) :
  _load_data excel = inl f -> exists cause, f = ErrorLoadingExcel cause.
Proof.
  unfold _load_data. destruct (load_body excel); [|done]. intros [= <-]. eauto.
Qed.

Lemma load_guarded_absent (wb : workbook) (d : data) :
  _load_data (Some wb) = inr d ->
  (wb !! lit "Vision & Mission" = None -> vision_mission d = []) /\
  (wb !! lit "Program Objectives" = None -> peo d = []) /\
  (wb !! lit "Program Outcomes" = None -> pso d = []) /\
  (wb !! lit "Contact Info" = None -> contact d = ∅).
Proof.
  unfold _load_data, load_body, ExcelFile. cbn [Exn.bind]. intros H.
  repeat split; intros Habs; rewrite Habs in H; cbn [Exn.bind] in H;
    repeat load_step_in H; by injection H as <-.
Qed.

Lemma load_succeeds (wb : workbook) :
  usable wb = true ->
  (forall name, name ∈ unconditional_sheets -> is_Some (wb !! name)) ->
  exists d, _load_data (Some wb) = inr d.
Proof.
  intros U Hreq. unfold usable in U.
  apply andb_true_iff in U as [U U7]. apply andb_true_iff in U as [U U6].
  apply andb_true_iff in U as [U U5]. apply andb_true_iff in U as [U U4].
  apply andb_true_iff in U as [U U3]. apply andb_true_iff in U as [U1 U2].
  pose proof (has_columns_spec _ _ _ _ U1) as C1.
  pose proof (has_columns_spec _ _ _ _ U2) as C2.
  pose proof (has_columns_spec _ _ _ _ U3) as C3.
  pose proof (has_columns_spec _ _ _ _ U4) as C4.
  pose proof (has_columns_spec _ _ _ _ U5) as C5.
  pose proof (has_columns_spec _ _ _ _ U6) as C6.
  pose proof (has_columns_spec _ _ _ _ U7) as C7.
  clear U1 U2 U3 U4 U5 U6 U7.
  destruct (Hreq (lit "Newsletter Info")) as [df1 H1]; [by apply list_elem_of_here|].
  destruct (Hreq (lit "Editorial Board")) as [df2 H2];
    [by apply list_elem_of_further, list_elem_of_here|].
  destruct (Hreq (lit "Department Events")) as [df3 H3];
    [by do 2 apply list_elem_of_further; apply list_elem_of_here|].
  assert (In1 : forall (x : str) l, x ∈ x :: l) by (intros; apply list_elem_of_here).
  assert (In2 : forall (x y : str) l, x ∈ y :: x :: l)
    by (intros; apply list_elem_of_further, list_elem_of_here).
  destruct (field_values_ok df1 (rows df1) ∅) as [info E1];
    [by apply (C1 df1 H1)..|].
  destruct (records_of_ok (lit "Role") df2) as [ed E2]; [by apply (C2 df2 H2)|].
  destruct (records_of_ok (lit "Event Title") df3) as [ev E3]; [by apply (C6 df3 H3)|].
  assert (Evm : exists l,
    match wb !! lit "Vision & Mission" with
    | Some _ => try df <- read_excel (Some wb) (lit "Vision & Mission");
                records_of (lit "Type") df
    | None => inr []
    end = inr l).
  { destruct (wb !! lit "Vision & Mission") as [df|] eqn:E; [|by eexists].
    rewrite (read_excel_present wb _ df E). cbn [Exn.bind].
    apply records_of_ok. by eapply C3. }
  assert (Epeo : exists l,
    match wb !! lit "Program Objectives" with
    | Some _ => try df <- read_excel (Some wb) (lit "Program Objectives");
                records_of (lit "Code") (rename alias (rename strip df))
    | None => inr []
    end = inr l).
  { destruct (wb !! lit "Program Objectives") as [df|] eqn:E; [|by eexists].
    rewrite (read_excel_present wb _ df E). cbn [Exn.bind].
    apply records_of_ok. by eapply C4. }
  assert (Epso : exists l,
    match wb !! lit "Program Outcomes" with
    | Some _ => try df <- read_excel (Some wb) (lit "Program Outcomes");
                records_of (lit "Code") (rename alias (rename strip df))
    | None => inr []
    end = inr l).
  { destruct (wb !! lit "Program Outcomes") as [df|] eqn:E; [|by eexists].
    rewrite (read_excel_present wb _ df E). cbn [Exn.bind].
    apply records_of_ok. by eapply C5. }
  assert (Ect : exists r,
    match wb !! lit "Contact Info" with
    | Some _ => try df <- read_excel (Some wb) (lit "Contact Info");
                field_values df (rows df) ∅
    | None => inr ∅
    end = inr r).
  { destruct (wb !! lit "Contact Info") as [df|] eqn:E; [|by eexists].
    rewrite (read_excel_present wb _ df E). cbn [Exn.bind].
    apply field_values_ok; by eapply C7. }
  destruct Evm as [vm Evm], Epeo as [po Epeo], Epso as [ps Epso], Ect as [ct Ect].
  unfold _load_data, load_body, ExcelFile. cbn [Exn.bind].
  rewrite (read_excel_present wb _ df1 H1). cbn [Exn.bind]. rewrite E1. cbn [Exn.bind].
  rewrite (read_excel_present wb _ df2 H2). cbn [Exn.bind]. rewrite E2. cbn [Exn.bind].
  rewrite Evm. cbn [Exn.bind]. rewrite Epeo. cbn [Exn.bind]. rewrite Epso. cbn [Exn.bind].
  rewrite (read_excel_present wb _ df3 H3). cbn [Exn.bind]. rewrite E3. cbn [Exn.bind].
  rewrite Ect. cbn [Exn.bind]. by eexists.
Qed.

(** C5 (as amended).  For a workbook whose sheets carry the columns that
    the loader indexes: loading succeeds exactly when the three sheets
    read unconditionally (["Newsletter Info"], ["Editorial Board"],
    ["Department Events"]) are present; when it succeeds, each of
    ["Vision & Mission"], ["Program Objectives"], ["Program Outcomes"],
    ["Contact Info"] that is absent yields an empty collection.  Every
    failure of the loader, an unreadable file included, is the single
    ["Error loading Excel"] exception carrying its cause, and the
    generation then writes no file. *)
Theorem load_outcome (wb : workbook) :
  usable wb = true ->
  ((exists d, _load_data (Some wb) = inr d) <->
   (forall name, name ∈ unconditional_sheets -> is_Some (wb !! name))) /\
  (forall d, _load_data (Some wb) = inr d ->
     (wb !! lit "Vision & Mission" = None -> vision_mission d = []) /\
     (wb !! lit "Program Objectives" = None -> peo d = []) /\
     (wb !! lit "Program Outcomes" = None -> pso d = []) /\
     (wb !! lit "Contact Info" = None -> contact d = ∅)) /\
  (forall excel f generate_html can_write session_id,
     _load_data excel = inl f ->
     (exists cause, f = ErrorLoadingExcel cause) /\
     generate_html_newsletter generate_html can_write excel session_id = Raised f) /\
  _load_data None = inl (ErrorLoadingExcel FileError).
Proof.
  intros U. split; [|split; [|split]].
  - split.
    + intros [d Hd] name Hin. destruct (wb !! name) as [df|] eqn:E; [by eexists|].
      destruct (load_absent wb name Hin E) as [cause Hc]. congruence.
    + by apply load_succeeds.
  - apply load_guarded_absent.
  - intros excel f generate_html can_write session_id Hf. split.
    + by eapply load_failure_shape.
    + unfold generate_html_newsletter. by rewrite Hf.
  - apply load_unreadable.
Qed.

(** C5, witness: a workbook with only the three sheets loads, and the
    other four tables are empty. *)
Lemma load_outcome_witness :
  usable three_sheets = true /\
  exists d, _load_data (Some three_sheets) = inr d /\
            vision_mission d = [] /\ peo d = [] /\ pso d = [] /\ contact d = ∅.
Proof.
  assert (U : usable three_sheets = true) by (vm_compute; reflexivity).
  split; [exact U|].
  destruct (load_outcome three_sheets U) as ([_ Hok] & Hempty & _).
  destruct Hok as [d Hd].
  - intros name Hin. unfold unconditional_sheets in Hin.
    repeat (apply elem_of_cons in Hin as [->|Hin]); [..|by apply elem_of_nil in Hin];
      vm_compute; eauto.
  - exists d. split; [exact Hd|].
    destruct (Hempty d Hd) as (H1 & H2 & H3 & H4).
    split; [apply H1; by vm_compute|]. split; [apply H2; by vm_compute|].
    split; [apply H3; by vm_compute|]. apply H4; by vm_compute.
Defined.

(** C5, counterexample: with ["Editorial Board"] and ["Department Events"]
    present and ["Newsletter Info"] absent, loading fails; and with every
    sheet that is read present but no [Role] column, loading fails too. *)
Lemma load_fails_without_info_sheet :
  is_Some (no_info_sheet !! lit "Editorial Board") /\
  is_Some (no_info_sheet !! lit "Department Events") /\
  no_info_sheet !! lit "Newsletter Info" = None /\
  _load_data (Some no_info_sheet)
    = inl (ErrorLoadingExcel (SheetNotFound (lit "Newsletter Info"))) /\
  (forall name, name ∈ unconditional_sheets -> is_Some (no_role_column !! name)) /\
  _load_data (Some no_role_column) = inl (ErrorLoadingExcel (KeyError (lit "Role"))).
Proof.
  split; [vm_compute; eauto|]. split; [vm_compute; eauto|]. split; [by vm_compute|].
  split; [by vm_compute|]. split; [|by vm_compute].
  intros name Hin. unfold unconditional_sheets in Hin.
  repeat (apply elem_of_cons in Hin as [->|Hin]); [..|by apply elem_of_nil in Hin];
    vm_compute; eauto.
Qed.

End LoaderFacts.

(** * Further properties of the text cleaner *)

Module CleanerMore.
Import PyStr Regex Cleaner Sentences CleanerFacts.
Local Open Scope N_scope.

Lemma strip_length (s : str) : (length (strip s) <= length s)%nat.
Proof.
  destruct (strip_decomp s) as (w1 & w2 & E & _).
  rewrite E at 2. rewrite !length_app. lia.
Qed.

Lemma join_length (x : str) (l : list str) :
  length (join space (x :: l)) =
    (length x + match l with [] => 0 | _ :: _ => 1 + length (join space l) end)%nat.
Proof. destruct l as [|y l]; [simpl; lia|]. rewrite join_cons2, !length_app. done. Qed.

Lemma join_length_sublist (k l : list str) :
  sublist k l -> (length (join space k) <= length (join space l))%nat.
Proof.
  induction 1 as [|x k l H IH|x k l H IH]; [done| |].
  - rewrite !join_length. destruct k as [|y k].
    + destruct l; lia.
    + destruct l as [|z l]; [by apply sublist_nil_r in H|]. lia.
  - rewrite join_length. destruct l as [|z l].
    + apply sublist_nil_r in H as ->. simpl. lia.
    + lia.
Qed.

Lemma join_length_app1 (x : str) (l : list str) :
  (length (join space ([x] ++ l)) <= length x + 1 + length (join space l))%nat.
Proof. simpl app. rewrite join_length. destruct l; simpl; lia. Qed.

Lemma full_sentences_length (text : str) :
  (length (join space (full_sentences_of text)) <= length text)%nat.
Proof.
  unfold full_sentences_of.
  remember (length text) as n eqn:En. revert text En.
  induction n as [n IH] using lt_wf_ind. intros text ->.
  destruct (find_match text) as [[[pre p] after]|] eqn:F.
  - rewrite (re_split_Some _ _ _ _ F), rebuild_pair by apply re_split_nonempty.
    pose proof (find_match_shorter _ _ _ _ F) as L.
    specialize (IH _ L after eq_refl).
    apply find_match_Some in F as (Hc & Hp & w & -> & Pn & Wn & Ap & _).
    rewrite !length_app. destruct w as [|d w]; [done|]. simpl length.
    destruct (strip pre) as [|x b] eqn:E.
    + simpl app. lia.
    + rewrite <- E. destruct (strip_piece_closed pre p) as [_ ->]; try done; [by rewrite E|].
      pose proof (join_length_app1 (strip pre ++ p) (rebuild (re_split after))) as J.
      pose proof (strip_length pre). rewrite length_app in J. lia.
  - rewrite (re_split_None _ F), rebuild_single.
    pose proof (strip_length text). destruct (strip text) as [|x b]; simpl in *; lia.
Qed.

Section More.
Variable lower : str -> str.

Local Abbreviation clean := (_clean_repetitive_text lower).

(** The result of the cleaner in terms of the stripped text. *)
Lemma clean_cases (s : str) :
  clean s = match strip s with
            | [] => []
            | _ :: _ =>
                match join space (cleaned_of lower (strip s)) with
                | [] => strip s
                | _ :: _ => join space (cleaned_of lower (strip s))
                end
            end.
Proof.
  destruct s as [|x s']; [done|]. unfold _clean_repetitive_text.
  by destruct (strip (x :: s')).
Qed.

(** X1.  The result is the empty string exactly when the input is empty
    or consists of white space only; a blank input is not returned as it
    is. *)
Theorem clean_empty_iff (s : str) : clean s = [] <-> strip s = [].
Proof.
  rewrite clean_cases. destruct (strip s) as [|x t] eqn:E; [done|].
  split; [|done]. by destruct (join space (cleaned_of lower (x :: t))).
Qed.

(** X2.  The result never begins or ends with white space. *)
Theorem clean_is_stripped (s : str) : strip (clean s) = clean s.
Proof.
  rewrite clean_cases. destruct (strip s) as [|x t] eqn:E; [done|]. rewrite <- E.
  destruct (join space (cleaned_of lower (strip s))) as [|y r] eqn:J.
  - apply strip_strip.
  - rewrite <- J.
    assert (Hc : cleaned_of lower (strip s) <> []) by (intros Hc; by rewrite Hc in J).
    by destruct (cleaned_join lower (strip s) Hc) as (_ & S & _).
Qed.

(** X3.  A text in which, once stripped, no [.], [!] or [?] is directly
    followed by white space is one sentence: the result is the stripped
    text, whether the sentence is long enough to be kept or not. *)
Theorem clean_single_sentence (s : str) : calm (strip s) -> clean s = strip s.
Proof.
  intros Hc. rewrite clean_cases. destruct (strip s) as [|x t] eqn:E; [done|].
  rewrite <- E in *.
  assert (T : tail_sentence (strip s)).
  { destruct (strip_decomp s) as (_ & _ & _ & _ & _ & [E'|[S1 S2]]); [congruence|].
    split; [done|]. split; [done|]. done. }
  unfold cleaned_of. rewrite (tail_sentence_alone _ T). cbn [dedupe].
  destruct (_ && _); cbn [dedupe app join]; by rewrite E.
Qed.

(** X5.  Cleaning never makes a text longer. *)
Theorem clean_never_longer (s : str) : (length (clean s) <= length s)%nat.
Proof.
  rewrite clean_cases. pose proof (strip_length s) as L.
  destruct (strip s) as [|x t] eqn:E; [simpl; lia|]. rewrite <- E in *.
  destruct (join space (cleaned_of lower (strip s))) as [|y r] eqn:J; [done|].
  rewrite <- J.
  pose proof (join_length_sublist _ _ (dedupe_sublist lower (full_sentences_of (strip s)) ∅)) as H1.
  pose proof (full_sentences_length (strip s)) as H2.
  unfold cleaned_of. lia.
Qed.
End More.

(** X3, witness: a text without a sentence break. *)
Lemma clean_single_sentence_witness :
  calm (strip (lit "  Hello world.  ")) /\
  clean_ascii (lit "  Hello world.  ") = lit "Hello world.".
Proof.
  assert (H : calm (strip (lit "  Hello world.  "))).
  { vm_compute. repeat split; intros [H1 H2]; first [discriminate H1 | discriminate H2]. }
  split; [exact H|]. exact (clean_single_sentence ascii_lower _ H).
Defined.

(** X4.  The list returned by [re.split] has odd length, and its
    elements at odd positions are non-empty runs of [.], [!], [?]: the
    test [len(sentences) % 2 == 1] of the cleaner always holds, and the
    element appended to a piece is always its punctuation. *)
Theorem re_split_alternates (s : str) :
  (length (re_split s) mod 2 = 1)%nat /\
  forall i p, re_split s !! (2 * i + 1)%nat = Some p ->
              p <> [] /\ Forall (fun c => is_punct c = true) p.
Proof.
  remember (length s) as n eqn:En. revert s En.
  induction n as [n IH] using lt_wf_ind. intros s ->.
  destruct (find_match s) as [[[pre p] after]|] eqn:F.
  - rewrite (re_split_Some _ _ _ _ F).
    pose proof (find_match_shorter _ _ _ _ F) as L.
    destruct (IH _ L after eq_refl) as [Hlen Hodd].
    apply find_match_Some in F as (_ & _ & w & _ & Pn & _ & Ap & _).
    split.
    + cbn [length]. replace (S (S (length (re_split after))))
        with (length (re_split after) + 1 * 2)%nat by lia.
      by rewrite Nat.Div0.mod_add.
    + intros [|i] q Hq.
      * simpl in Hq. assert (q = p) as -> by congruence. by split.
      * replace (2 * S i + 1)%nat with (S (S (2 * i + 1))) in Hq by lia.
        exact (Hodd i q Hq).
  - rewrite (re_split_None _ F). split; [done|].
    intros i q Hq. replace (2 * i + 1)%nat with (S (2 * i)) in Hq by lia. done.
Qed.

End CleanerMore.

(** * Further properties of the PDF editor *)

Module PdfEditorMore.
Import PyStr Exn PdfEditor PdfMerge PdfInvariant Samples MoreSamples PdfEditorFacts.

Section MoreEditorFacts.
Context {page overlay : Type}.
Variable merge_page : page -> overlay -> page.
Variable rotate : page -> Z -> page.
Variable page_text : page -> str.
Variable draw : primitive -> result overlay.

Lemma keeps_refl (self : PDFEditor page) : keeps self self.
Proof. by repeat split. Qed.

Lemma keeps_trans (a b c : PDFEditor page) : keeps a b -> keeps b c -> keeps a c.
Proof.
  intros (P1 & L1 & N1) (P2 & L2 & N2). split; [by etrans|]. split; congruence.
Qed.

Lemma keeps_append (self : PDFEditor page) (added : list page) :
  keeps self {| reader := reader self; writer := writer self ++ added;
                num_pages := num_pages self |}.
Proof. split; [by apply prefix_app_r|done]. Qed.

Lemma keeps_edit (self : PDFEditor page) (j : nat) (p : page) :
  keeps self {| reader := <[j := p]> (reader self); writer := writer self ++ [p];
                num_pages := num_pages self |}.
Proof. split; [by apply prefix_app_r|]. split; [apply length_insert|done]. Qed.

Lemma draw_on_keeps (self : PDFEditor page) (page_num : Z) (what : primitive) :
  keeps self (draw_on merge_page draw self page_num what).2.
Proof.
  unfold draw_on, overlay_page. destruct (draw what) as [e|o]; [apply keeps_refl|].
  destruct (getitem_at (reader self) page_num) as [e|[j p]]; [apply keeps_refl|].
  apply keeps_edit.
Qed.

Lemma delete_loop_keeps (self : PDFEditor page) (page_num : Z) (todo : list nat) :
  keeps self (delete_loop self page_num todo).2.
Proof.
  revert self. induction todo as [|i rest IH]; intros self; [apply keeps_refl|].
  cbn [delete_loop]. destruct (decide _); [apply IH|].
  destruct (getitem (reader self) (Z.of_nat i)) as [e|p]; [apply keeps_refl|].
  eapply keeps_trans; [|apply IH]. apply keeps_append.
Qed.

Lemma merge_pdfs_keeps (self : PDFEditor page) (disk : gmap str (list page))
    (pdf_paths : list str) :
  keeps self (merge_pdfs self disk pdf_paths).2.
Proof.
  revert self. induction pdf_paths as [|path rest IH]; intros self; [apply keeps_refl|].
  cbn [merge_pdfs]. destruct (PdfReader disk path) as [e|pages]; [apply keeps_refl|].
  eapply keeps_trans; [|apply IH]. apply keeps_append.
Qed.

(** X6.  Every method is append-only on the writer and never changes the
    number of source pages or the stored page count, whether it returns
    or raises: the pages already in the writer stay where they are, and
    [get_page_count] keeps returning the same number, also after
    [delete_page]. *)
Theorem calls_keep_writer_prefix (self : PDFEditor page) (page_num : Z) :
  (forall text x y font_size color font_name,
     keeps self (add_text merge_page draw self page_num text x y font_size color
                   font_name).2) /\
  (forall image_path x y width height,
     keeps self (add_image merge_page draw self page_num image_path x y width height).2) /\
  (forall x y width height fill_color stroke_color stroke_width,
     keeps self (add_rectangle merge_page draw self page_num x y width height fill_color
                   stroke_color stroke_width).2) /\
  (forall x1 y1 x2 y2 color width,
     keeps self (add_line merge_page draw self page_num x1 y1 x2 y2 color width).2) /\
  (forall angle, keeps self (rotate_page rotate self page_num angle).2) /\
  keeps self (delete_page self page_num).2 /\
  get_page_count (delete_page self page_num).2 = get_page_count self /\
  keeps self (extract_text page_text self page_num).2 /\
  (forall disk pdf_paths, keeps self (merge_pdfs self disk pdf_paths).2).
Proof.
  pose proof (delete_loop_keeps self page_num (seq 0 (num_pages self))) as D.
  split; [intros; apply draw_on_keeps|]. split; [intros; apply draw_on_keeps|].
  split; [intros; apply draw_on_keeps|]. split; [intros; apply draw_on_keeps|].
  split.
  { intros angle. unfold rotate_page.
    destruct (getitem_at (reader self) page_num) as [e|[j p]]; [apply keeps_refl|].
    destruct (decide _); [apply keeps_edit|apply keeps_refl]. }
  split; [exact D|]. split; [by destruct D as (_ & _ & D)|]. split.
  { unfold extract_text. destruct (getitem (reader self) page_num); apply keeps_refl. }
  intros disk pdf_paths. apply merge_pdfs_keeps.
Qed.

Lemma delete_page_nat (self : PDFEditor page) (k : nat) :
  num_pages self = length (reader self) ->
  delete_page self (Z.of_nat k) =
    (inr true, {| reader := reader self; writer := writer self ++ delete k (reader self);
                  num_pages := num_pages self |}).
Proof.
  intros Hn. unfold delete_page. rewrite delete_loop_spec by (rewrite Hn; simpl; lia).
  by rewrite Hn, omap_lookup_delete.
Qed.

(** X7.  When the stored page count is the length of the source (as it
    is after [__init__] and after every call), [delete_page] with a
    non-negative index [k] succeeds and appends to the writer the source
    without its page [k], that is, one page less than the source when
    [k] is inside the document. *)
Theorem delete_page_appends_rest (self : PDFEditor page) (k : nat) :
  num_pages self = length (reader self) ->
  delete_page self (Z.of_nat k) =
    (inr true, {| reader := reader self; writer := writer self ++ delete k (reader self);
                  num_pages := num_pages self |}) /\
  ((k < length (reader self))%nat ->
   length (delete k (reader self)) = (length (reader self) - 1)%nat).
Proof.
  intros Hn. split; [by apply delete_page_nat|].
  intros Hk. rewrite length_delete by by apply lookup_lt_is_Some_2. lia.
Qed.

(** X8.  Two deletions do not combine: after [delete_page i] and
    [delete_page j] on a freshly opened document the writer holds the
    source without page [i] followed by the source without page [j]. *)
Theorem delete_page_twice (source : list page) (i j : nat) :
  delete_page (delete_page (__init__ source) (Z.of_nat i)).2 (Z.of_nat j) =
    (inr true, {| reader := source; writer := delete i source ++ delete j source;
                  num_pages := length source |}).
Proof.
  rewrite (delete_page_nat (__init__ source) i) by done. cbn [snd].
  rewrite delete_page_nat by done. done.
Qed.

Lemma omap_lookup_negative (l : list page) (page_num : Z) :
  (page_num < 0)%Z ->
  omap (fun i => if decide (Z.of_nat i = page_num) then None else l !! i)
    (seq 0 (length l)) = l.
Proof.
  intros H.
  assert (G : forall (t pre : list page),
             omap (fun i => if decide (Z.of_nat i = page_num) then None
                            else (pre ++ t) !! i) (seq (length pre) (length t)) = t).
  { induction t as [|x t IHt]; intros pre; [done|].
    cbn [length seq omap list_omap]. rewrite decide_False by lia.
    rewrite list_lookup_middle by done. f_equal.
    specialize (IHt (pre ++ [x])). rewrite <- app_assoc, length_app in IHt.
    simpl in IHt. by rewrite Nat.add_1_r in IHt. }
  apply (G l []).
Qed.

(** X9.  A negative index deletes nothing: [delete_page] compares the
    index with the positions [0 .. count-1] only, so [delete_page(-1)]
    appends every page of the source, the last one included. *)
Theorem delete_page_negative (self : PDFEditor page) (page_num : Z) :
  num_pages self = length (reader self) -> (page_num < 0)%Z ->
  delete_page self page_num =
    (inr true, {| reader := reader self; writer := writer self ++ reader self;
                  num_pages := num_pages self |}).
Proof.
  intros Hn H. unfold delete_page. rewrite delete_loop_spec by (rewrite Hn; simpl; lia).
  by rewrite Hn, omap_lookup_negative.
Qed.

(** X10.  A drawing operation modifies the page object of the source in
    place: after it, [extract_text] on the same index reads the merged
    page, and the other pages of the source are as before. *)
Theorem edit_is_seen_by_later_reads (self : PDFEditor page) (j : nat) (p : page)
    (what : primitive) (o : overlay) :
  reader self !! j = Some p -> draw what = inr o ->
  let edited := (draw_on merge_page draw self (Z.of_nat j) what).2 in
  (draw_on merge_page draw self (Z.of_nat j) what).1 = inr true /\
  (extract_text page_text edited (Z.of_nat j)).1 = inr (page_text (merge_page p o)) /\
  (forall i, i <> j -> reader edited !! i = reader self !! i).
Proof.
  intros Hj Hd. pose proof (lookup_lt_Some _ _ _ Hj) as Lt.
  assert (G : getitem_at (reader self) (Z.of_nat j) = inr (j, p)).
  { unfold getitem_at. rewrite normalize_index_in_range by done. simpl. by rewrite Hj. }
  unfold draw_on, overlay_page. rewrite Hd, G. cbn [fst snd reader].
  split; [done|]. split.
  - unfold extract_text.
    erewrite getitem_in_range; [done|]. by apply list_lookup_insert_eq.
  - intros i Hi. by apply list_lookup_insert_ne.
Qed.

Lemma merge_pdfs_app (self : PDFEditor page) (disk : gmap str (list page))
    (good : list str) (docs : list (list page)) (rest : list str) :
  Forall2 (fun path doc => disk !! path = Some doc) good docs ->
  merge_pdfs self disk (good ++ rest) =
    merge_pdfs {| reader := reader self; writer := writer self ++ concat docs;
                  num_pages := num_pages self |} disk rest.
Proof.
  intros H. revert self. induction H as [|path doc good docs Hp _ IH]; intros self.
  - simpl. rewrite app_nil_r. by destruct self.
  - cbn [app merge_pdfs concat]. unfold PdfReader at 1. rewrite Hp. rewrite IH.
    cbn [reader writer num_pages]. by rewrite <- app_assoc.
Qed.

(** X11.  [merge_pdfs] appends the pages of the documents in the order
    of the paths.  When all of them can be read it returns [True]; when
    one cannot, the call raises and the pages of the documents before it
    stay in the writer. *)
Theorem merge_pdfs_outcome (self : PDFEditor page) (disk : gmap str (list page))
    (good : list str) (docs : list (list page)) :
  Forall2 (fun path doc => disk !! path = Some doc) good docs ->
  let merged := {| reader := reader self; writer := writer self ++ concat docs;
                   num_pages := num_pages self |} in
  merge_pdfs self disk good = (inr true, merged) /\
  (forall bad rest, disk !! bad = None ->
     merge_pdfs self disk (good ++ bad :: rest) = (inl FileError, merged)).
Proof.
  intros H merged. split.
  - rewrite <- (app_nil_r good). by rewrite (merge_pdfs_app self disk good docs []).
  - intros bad rest Hb. rewrite (merge_pdfs_app self disk good docs) by done.
    cbn [merge_pdfs]. unfold PdfReader. by rewrite Hb.
Qed.

End MoreEditorFacts.

(** X7, witness. *)
Lemma delete_page_appends_rest_witness :
  num_pages demo_editor = length (reader demo_editor) /\
  delete_page demo_editor 1 =
    (inr true, {| reader := [10; 11; 12; 13; 14]%nat; writer := [10; 12; 13; 14]%nat;
                  num_pages := 5 |}).
Proof.
  assert (H : num_pages demo_editor = length (reader demo_editor)) by reflexivity.
  split; [exact H|]. exact (proj1 (delete_page_appends_rest demo_editor 1 H)).
Defined.

(** X9, witness. *)
Lemma delete_page_negative_witness :
  num_pages demo_editor = length (reader demo_editor) /\ (-1 < 0)%Z /\
  delete_page demo_editor (-1) =
    (inr true, {| reader := [10; 11; 12; 13; 14]%nat;
                  writer := [10; 11; 12; 13; 14]%nat; num_pages := 5 |}).
Proof.
  assert (H : num_pages demo_editor = length (reader demo_editor)) by reflexivity.
  assert (N : (-1 < 0)%Z) by reflexivity.
  split; [exact H|]. split; [exact N|].
  exact (delete_page_negative demo_editor (-1) H N).
Defined.

(** X10, witness. *)
Lemma edit_is_seen_by_later_reads_witness :
  reader demo_editor !! 2%nat = Some 12%nat /\
  demo_draw (DrawLine 0 0 1 1 (lit "#000000") 1) = inr 100%nat /\
  (extract_text demo_text
     (draw_on demo_merge demo_draw demo_editor 2 (DrawLine 0 0 1 1 (lit "#000000") 1)).2
     2).1 = inr (demo_text 112%nat).
Proof.
  assert (H1 : reader demo_editor !! 2%nat = Some 12%nat) by reflexivity.
  assert (H2 : demo_draw (DrawLine 0 0 1 1 (lit "#000000") 1) = inr 100%nat) by reflexivity.
  split; [exact H1|]. split; [exact H2|].
  exact (proj1 (proj2 (edit_is_seen_by_later_reads demo_merge demo_text demo_draw
                         demo_editor 2 12%nat _ 100%nat H1 H2))).
Defined.

(** X11, witness. *)
Lemma merge_pdfs_outcome_witness :
  Forall2 (fun path doc => demo_disk !! path = Some doc) [lit "a.pdf"] [[1; 2]%nat] /\
  merge_pdfs demo_editor demo_disk [lit "a.pdf"; lit "missing.pdf"; lit "a.pdf"] =
    (inl FileError, {| reader := [10; 11; 12; 13; 14]%nat; writer := [1; 2]%nat;
                       num_pages := 5 |}).
Proof.
  assert (H : Forall2 (fun path doc => demo_disk !! path = Some doc)
                [lit "a.pdf"] [[1; 2]%nat]).
  { constructor; [by vm_compute|constructor]. }
  split; [exact H|].
  exact (proj2 (merge_pdfs_outcome demo_editor demo_disk _ _ H) (lit "missing.pdf")
           [lit "a.pdf"] ltac:(by vm_compute)).
Defined.

End PdfEditorMore.

(** * Further properties of the grouper, of the event details and of the
      page layout *)

Module RenderMore.
Import PyStr Exn Pandas Grouper Pages Details Samples MoreSamples GrouperFacts PagesFacts.

(** X12.  The bucket of a section name exists exactly when some event is
    filed under that name, and it then lists those events and no others,
    in the order of the event list; names that differ, if only in letter
    case, are different buckets. *)
Theorem bucket_contents (events : list record) (name : str) (l : list record) :
  _group_events_by_section events !! name = Some l <->
  l <> [] /\ l = filter (fun e => section_of e = Some name) events.
Proof.
  rewrite group_lookup. destruct (filter _ events) as [|x k] eqn:E.
  - split; [done|]. by intros [H ->].
  - split; [by intros [= <-]|]. by intros [_ ->].
Qed.

Lemma filter_all_same (events : list record) (name : str) :
  Forall (fun x => section_of x = Some name) events ->
  filter (fun e => section_of e = Some name) events = events.
Proof.
  induction 1 as [|x l Hx _ IH]; [done|].
  rewrite filter_cons, decide_True by done. by rewrite IH.
Qed.

Section DetailsFacts.
Variable lower : str -> str.

(** X13.  In a section page the details line of the event at position
    [k] of the section is the one built from the event at position [k]
    of the whole event list, which is the same event when all events
    belong to that section. *)
Theorem details_follow_list_position (events : list record) (name : str)
    (l : list record) (k : nat) (e : record) :
  _group_events_by_section events !! name = Some l -> l !! k = Some e ->
  exists e',
    events !! k = Some e' /\
    section_blocks (event_details_list lower events) l !! k
      = Some (e, Some (_build_event_details lower e')) /\
    (Forall (fun x => section_of x = Some name) events -> e' = e).
Proof.
  intros Hl Hk. rewrite group_lookup in Hl.
  assert (El : l = filter (fun e => section_of e = Some name) events).
  { destruct (filter _ events); [done|]. by injection Hl. }
  pose proof (lookup_lt_Some _ _ _ Hk) as Lk.
  assert (Le : (k < length events)%nat).
  { pose proof (length_filter (fun e => section_of e = Some name) events). subst l. lia. }
  destruct (lookup_lt_is_Some_2 events k Le) as [e' He']. exists e'.
  split; [done|]. split.
  - unfold section_blocks, event_details_list.
    by rewrite list_lookup_imap, Hk, list_lookup_fmap, He'.
  - intros Hall. rewrite (filter_all_same events name Hall) in El. subst l. congruence.
Qed.
End DetailsFacts.

(** X13, witness: the only event of section ["Beta"] is rendered with
    the speaker of the first event of the list. *)
Lemma details_follow_list_position_witness :
  _group_events_by_section [keynote; workshop] !! lit "Beta" = Some [workshop] /\
  [workshop] !! 0%nat = Some workshop /\
  section_blocks (event_details_list ascii_lower [keynote; workshop]) [workshop] !! 0%nat
    = Some (workshop, Some [lit "Guest Speaker: Dr. Rao"]).
Proof.
  assert (H1 : _group_events_by_section [keynote; workshop] !! lit "Beta" = Some [workshop])
    by (by vm_compute).
  assert (H2 : [workshop] !! 0%nat = Some workshop) by reflexivity.
  split; [exact H1|]. split; [exact H2|].
  destruct (details_follow_list_position ascii_lower [keynote; workshop] (lit "Beta")
              [workshop] 0 workshop H1 H2) as (e' & He' & Hb & _).
  injection He' as <-. exact Hb.
Defined.

(** X14.  When the document is rendered it has one [a4] block per
    section between the three leading blocks and the contact block:
    [4 + n] blocks for [n] sections, the contents table has [n] rows, and
    the last block is the contact page. *)
Theorem document_length (sections : gmap value (list record)) (pages : list a4_page) :
  document_pages sections = inr pages ->
  length pages = (4 + size sections)%nat /\
  (exists table, pages !! 2%nat = Some (ContentsPage table) /\
                 length table = size sections) /\
  last pages = Some ContactPage /\
  (forall ss, sorted_keys sections = inr ss -> length ss = size sections).
Proof.
  unfold document_pages. destruct (sorted_keys sections) as [e|ss] eqn:S; [done|].
  cbn [bind]. unfold text_names.
  destruct (mapM as_text ss) as [names|] eqn:M; [|done]. cbn [bind]. intros [= <-].
  pose proof (sorted_keys_length _ _ S) as L.
  apply (mapM_as _ _ as_text_spec) in M. subst ss. rewrite length_fmap in L.
  split; [|split; [|split]].
  - unfold section_pages. cbn [length]. rewrite length_app, length_fmap, L. simpl. lia.
  - eexists. split; [reflexivity|].
    unfold contents_rows, enumerate. by rewrite length_fmap, length_imap.
  - by rewrite !app_comm_cons, last_snoc.
  - intros ss [= <-]. by rewrite length_fmap.
Qed.

(** X14, witness: three sections give seven blocks. *)
Lemma document_length_witness :
  exists pages, document_pages three_sections = inr pages /\ length pages = 7%nat.
Proof.
  assert (H : document_pages three_sections = document_pages three_sections) by reflexivity.
  revert H. generalize (document_pages three_sections) at 2. intros r H.
  assert (E : exists pages, r = inr pages).
  { rewrite <- H. vm_compute. eauto. }
  destruct E as [pages ->]. exists pages. split; [exact H|].
  exact (proj1 (document_length three_sections pages H)).
Defined.

End RenderMore.

(** * Further properties of the image resolver *)

Module ImagesMore.
Import PyStr Images Details Samples ImagesFacts.

(** X15.  A key receives an inline payload exactly when it has no path
    reference, the caller maps it to a file that exists, and that file
    encodes to a non-empty payload, which is the payload stored; a
    missing file or a failed encoding leaves the key out. *)
Theorem embedded_iff (fs : files) (self_image_paths : gmap str str) (key payload : str) :
  (_convert_images_to_base64 fs self_image_paths).1 !! key = Some payload <->
  header_paths fs !! key = None /\ payload <> [] /\
  exists path, self_image_paths !! key = Some path /\ path_exists fs path = true /\
               _encode_image fs path = Some payload.
Proof.
  rewrite embedded_lookup.
  match goal with |- context [mbind _ ?o] => destruct o as [path|] eqn:E end; simpl.
  - unfold embed_entry. destruct (decide (is_Some (header_paths fs !! key))) as [[p Hp]|Hn].
    + split; [done|]. intros (H & _).
      pose proof (eq_trans (eq_sym H) Hp) as Hc. discriminate Hc.
    + assert (Hnone : header_paths fs !! key = None).
      { destruct (header_paths fs !! key) eqn:Ek; [|done]. destruct Hn. by eexists. }
      destruct (path_exists fs path) eqn:Ex.
      * destruct (_encode_image fs path) as [[|c enc]|] eqn:En.
        -- split; [done|]. intros (_ & Hp & path' & [= <-] & _ & Hen).
           pose proof (eq_trans (eq_sym En) Hen) as Hc. injection Hc as <-. done.
        -- split.
           ++ intros [= <-]. split; [done|]. split; [done|]. by exists path.
           ++ intros (_ & _ & path' & [= <-] & _ & Hen).
              pose proof (eq_trans (eq_sym En) Hen) as Hc. by injection Hc as <-.
        -- split; [done|]. intros (_ & _ & path' & [= <-] & _ & Hen).
           pose proof (eq_trans (eq_sym En) Hen) as Hc. discriminate Hc.
      * split; [done|]. intros (_ & _ & path' & [= <-] & Hex & _).
        pose proof (eq_trans (eq_sym Ex) Hex) as Hc. discriminate Hc.
  - split; [done|]. by intros (_ & _ & path' & ? & _).
Qed.

(** X16.  A key receives a path reference exactly when it is one of the
    four header keys and its static file exists; the reference is the
    static path [static/images/<name>.png] itself. *)
Theorem image_paths_iff (fs : files) (self_image_paths : gmap str str) (key p : str) :
  (_convert_images_to_base64 fs self_image_paths).2 !! key = Some p <->
  (key, p) ∈ header_keys /\ path_exists fs p = true.
Proof.
  change ((_convert_images_to_base64 fs self_image_paths).2) with (header_paths fs).
  split; [apply header_paths_only|].
  intros [Hk Hx]. by rewrite (header_paths_lookup fs key p Hk), Hx.
Qed.

(** X17.  What the template shows for a header key: the static path when
    the static file exists; otherwise the inline payload of the file the
    caller supplied for that key, when it exists and encodes to a
    non-empty payload; otherwise no image at all. *)
Theorem header_image_choice (fs : files) (self_image_paths : gmap str str)
    (key path : str) :
  (key, path) ∈ header_keys ->
  let embedded_images := (_convert_images_to_base64 fs self_image_paths).1 in
  let image_file_paths := (_convert_images_to_base64 fs self_image_paths).2 in
  header_image embedded_images image_file_paths key =
    if path_exists fs path then Some (FromPath path)
    else
      match self_image_paths !! key with
      | Some supplied =>
          if path_exists fs supplied then
            match _encode_image fs supplied with
            | Some (c :: encoded) => Some (Inline (c :: encoded))
            | _ => None
            end
          else None
      | None => None
      end.
Proof.
  intros Hk. cbv zeta. unfold header_image.
  change ((_convert_images_to_base64 fs self_image_paths).2) with (header_paths fs).
  rewrite embedded_lookup.
  pose proof (header_paths_lookup fs key path Hk) as HL.
  assert (Hp : exists c p, path = c :: p).
  { unfold header_keys in Hk.
    repeat (apply elem_of_cons in Hk as [Hk|Hk]; [injection Hk as -> ->; by eexists _, _|]).
    by apply elem_of_nil in Hk. }
  destruct Hp as (c & p & ->).
  match goal with
  | |- match ?o with Some _ => _ | None => _ end = _ => destruct o as [q|] eqn:Eq
  end; pose proof (eq_trans (eq_sym Eq) HL) as Hq;
    destruct (path_exists fs (c :: p)) eqn:Ex; try discriminate Hq.
  - by injection Hq as ->.
  - match goal with |- context [mbind _ ?o] => destruct o as [supplied|] eqn:E end;
      simpl; [|done].
    unfold embed_entry. rewrite decide_False.
    + destruct (path_exists fs supplied); [|done].
      by destruct (_encode_image fs supplied) as [[|? ?]|].
    + intros [q' Hq']. pose proof (eq_trans (eq_sym Hq') Eq) as Hc. discriminate Hc.
Qed.

(** X17, witness: without the static file the caller's upload is
    inlined. *)
Lemma header_image_choice_witness :
  (lit "college_logo", lit "static/images/college_logo.png") ∈ header_keys /\
  header_image (_convert_images_to_base64 uploads_only caller_logo).1
    (_convert_images_to_base64 uploads_only caller_logo).2 (lit "college_logo")
  = Some (Inline (lit "aGVsbG8=")).
Proof.
  assert (H : (lit "college_logo", lit "static/images/college_logo.png") ∈ header_keys)
    by apply list_elem_of_here.
  split; [exact H|].
  exact (header_image_choice uploads_only caller_logo _ _ H).
Defined.

End ImagesMore.

(** * Further properties of the loader *)

Module LoaderMore.
Import PyStr Exn Pandas Loader Samples MoreSamples LoaderFacts.

Lemma positions_from_absent (j : nat) (key : str) (cols : list str) :
  key ∉ cols -> positions_from j key cols = [].
Proof.
  revert j. induction cols as [|c r IH]; intros j H; [done|].
  apply not_elem_of_cons in H as [Hne Hr]. simpl.
  rewrite decide_False by done. by apply IH.
Qed.

Lemma positions_from_unique (j i : nat) (key : str) (cols : list str) :
  NoDup cols -> cols !! i = Some key -> positions_from j key cols = [(j + i)%nat].
Proof.
  revert j i. induction cols as [|c r IH]; intros j i ND Hi; [done|].
  apply NoDup_cons in ND as [Hc ND]. simpl. destruct i as [|i].
  - injection Hi as ->. rewrite decide_True by done.
    rewrite positions_from_absent by done. by rewrite Nat.add_0_r.
  - simpl in Hi. rewrite decide_False.
    + rewrite (IH (S j) i) by done. f_equal. lia.
    + intros ->. apply Hc. by eapply list_elem_of_lookup_2.
Qed.

Lemma field_values_app (df : DataFrame) (a b : list (list cell)) (acc : record) :
  field_values df (a ++ b) acc =
    try m <- field_values df a acc; field_values df b m.
Proof.
  revert acc. induction a as [|row a IH]; intros acc; [done|].
  cbn [app field_values].
  destruct (row_get df row (lit "Field")) as [e|[|k]]; cbn [bind]; [done|apply IH|].
  destruct (row_get df row (lit "Value")) as [e|v]; cbn [bind]; [done|apply IH].
Qed.

(** X19.  The dictionary built from a Field/Value sheet is filled row by
    row: a row with a blank Field changes nothing, and a row with a
    Field sets that key to its Value, replacing what an earlier row
    stored under the same key. *)
Theorem later_rows_override (df : DataFrame) (before : list (list cell))
    (row : list cell) (m : record) :
  field_values df before ∅ = inr m ->
  field_values df (before ++ [row]) ∅ =
    match row_get df row (lit "Field") with
    | inl e => inl e
    | inr NaN => inr m
    | inr (Text k) =>
        match row_get df row (lit "Value") with
        | inl e => inl e
        | inr v => inr (<[k := v]> m)
        end
    end.
Proof.
  intros H. rewrite field_values_app, H. cbn [bind field_values].
  destruct (row_get df row (lit "Field")) as [e|[|k]]; cbn [bind]; [done..|].
  by destruct (row_get df row (lit "Value")).
Qed.

(** X19, witness: a second ["Month"] row replaces the first. *)
Lemma later_rows_override_witness :
  field_values info_sheet (rows info_sheet) ∅
    = inr {[ lit "Month" := Text (lit "AUGUST") ]} /\
  field_values info_sheet (rows info_sheet ++ [month_again]) ∅
    = inr {[ lit "Month" := Text (lit "MAY") ]}.
Proof.
  assert (H : field_values info_sheet (rows info_sheet) ∅
              = inr {[ lit "Month" := Text (lit "AUGUST") ]}) by (by vm_compute).
  split; [exact H|].
  rewrite (later_rows_override info_sheet (rows info_sheet) month_again _ H).
  by vm_compute.
Defined.

Lemma to_record_untouched (cols : list str) (row : list cell) (m : record) (k : str) :
  k ∉ cols ->
  foldl (fun m kv => <[kv.1 := kv.2]> m) m (zip cols row) !! k = m !! k.
Proof.
  revert row m. induction cols as [|c cs IH]; intros row m H; [done|].
  apply not_elem_of_cons in H as [Hne Hcs].
  destruct row as [|v vs]; [done|]. cbn [zip zip_with foldl fst snd].
  rewrite IH by done. by rewrite lookup_insert_ne.
Qed.

(** A record holds each cell under the label of its column. *)
Lemma to_record_lookup (cols : list str) (row : list cell) (i : nat) (k : str) (v : cell) :
  NoDup cols -> cols !! i = Some k -> row !! i = Some v ->
  to_record cols row !! k = Some v.
Proof.
  unfold to_record. generalize (∅ : record).
  revert row i. induction cols as [|c cs IH]; intros row i m ND Hc Hr; [done|].
  apply NoDup_cons in ND as [Hnotin ND].
  destruct row as [|x xs]; [done|]. cbn [zip zip_with foldl fst snd].
  destruct i as [|i].
  - injection Hc as ->. injection Hr as ->.
    rewrite to_record_untouched by done. by rewrite lookup_insert_eq.
  - by apply (IH xs i).
Qed.

(** X20.  With distinct column labels and rows of full width,
    [dropna(subset=[key]).to_dict('records')] excludes exactly the rows
    whose cell under [key] is blank: every record has a value under
    [key], and there are as many records as rows with a value there. *)
Theorem records_have_key (key : str) (df : DataFrame) (i : nat) :
  NoDup (columns df) ->
  Forall (fun row => length row = length (columns df)) (rows df) ->
  columns df !! i = Some key ->
  exists l,
    records_of key df = inr l /\
    (forall r, r ∈ l -> exists s, r !! key = Some (Text s)) /\
    length l = length (List.filter (fun row => notna (cell_at row i)) (rows df)).
Proof.
  intros ND Hw Hi.
  assert (P : positions key (columns df) = [i])
    by (unfold positions; by rewrite (positions_from_unique 0 i)).
  assert (F : forall rs : list (list cell),
            List.filter (fun row => forallb (fun j => notna (cell_at row j)) [i]) rs
            = List.filter (fun row => notna (cell_at row i)) rs).
  { intros rs. apply List.filter_ext. intros row. simpl. by rewrite andb_true_r. }
  unfold records_of, dropna. rewrite P. cbn [bind]. unfold to_dict_records.
  cbn [columns rows]. rewrite F. eexists. split; [reflexivity|]. split.
  - intros r Hr. apply list_elem_of_fmap in Hr as (row & -> & Hrow).
    apply list_elem_of_In, List.filter_In in Hrow as [Hrow Hn].
    apply list_elem_of_In in Hrow. rewrite Forall_forall in Hw.
    pose proof (Hw row Hrow) as Lr.
    destruct (lookup_lt_is_Some_2 row i) as [c Hc];
      [rewrite Lr; by eapply lookup_lt_Some|].
    rewrite (to_record_lookup _ _ i key c ND Hi Hc).
    unfold cell_at in Hn. rewrite Hc in Hn. simpl in Hn.
    destruct c as [|s]; [done|]. by exists s.
  - by rewrite length_fmap.
Qed.

(** X20, witness: of three rows, the one with a blank role is
    excluded. *)
Lemma records_have_key_witness :
  NoDup (columns board_with_blank) /\
  Forall (fun row => length row = length (columns board_with_blank))
    (rows board_with_blank) /\
  columns board_with_blank !! 0%nat = Some (lit "Role") /\
  exists l, records_of (lit "Role") board_with_blank = inr l /\ length l = 2%nat.
Proof.
  assert (H1 : NoDup (columns board_with_blank)).
  { apply NoDup_cons. split; [|apply NoDup_singleton].
    intros H%list_elem_of_singleton. by vm_compute in H. }
  assert (H2 : Forall (fun row => length row = length (columns board_with_blank))
                 (rows board_with_blank)) by (repeat constructor).
  assert (H3 : columns board_with_blank !! 0%nat = Some (lit "Role")) by reflexivity.
  split; [exact H1|]. split; [exact H2|]. split; [exact H3|].
  destruct (records_have_key (lit "Role") board_with_blank 0 H1 H2 H3) as (l & Hl & _ & Hn).
  exists l. split; [exact Hl|exact Hn].
Defined.

(** X21.  In the Program Objectives and Program Outcomes sheets a column
    whose label, once stripped, is [Objective] or [Outcome] is delivered
    under the key [Description]: with distinct labels after renaming,
    the record of a row holds under [Description] the cell of that
    column. *)
Theorem objective_becomes_description (df : DataFrame) (i : nat) (c : str)
    (row : list cell) (v : cell) :
  columns df !! i = Some c ->
  strip c = lit "Objective" \/ strip c = lit "Outcome" ->
  NoDup (columns (rename alias (rename strip df))) ->
  row !! i = Some v ->
  to_record (columns (rename alias (rename strip df))) row !! lit "Description" = Some v.
Proof.
  intros Hc Hs ND Hv. apply (to_record_lookup _ _ i); [done| |done].
  cbn [rename columns]. rewrite !list_lookup_fmap, Hc. simpl. f_equal.
  unfold alias. destruct Hs as [-> | ->]; by vm_compute.
Qed.

(** X21, witness: the label ["Objective "] with a trailing blank. *)
Lemma objective_becomes_description_witness :
  columns objectives_sheet !! 1%nat = Some (lit "Objective ") /\
  (strip (lit "Objective ") = lit "Objective" \/ strip (lit "Objective ") = lit "Outcome") /\
  NoDup (columns (rename alias (rename strip objectives_sheet))) /\
  [Text (lit "PEO1"); Text (lit "Graduates will excel.")] !! 1%nat
    = Some (Text (lit "Graduates will excel.")) /\
  to_record (columns (rename alias (rename strip objectives_sheet)))
    [Text (lit "PEO1"); Text (lit "Graduates will excel.")] !! lit "Description"
    = Some (Text (lit "Graduates will excel.")).
Proof.
  assert (H1 : columns objectives_sheet !! 1%nat = Some (lit "Objective ")) by reflexivity.
  assert (H2 : strip (lit "Objective ") = lit "Objective"
               \/ strip (lit "Objective ") = lit "Outcome") by (left; by vm_compute).
  assert (H3 : NoDup (columns (rename alias (rename strip objectives_sheet)))).
  { apply NoDup_cons. split; [|apply NoDup_singleton].
    intros H%list_elem_of_singleton. by vm_compute in H. }
  assert (H4 : [Text (lit "PEO1"); Text (lit "Graduates will excel.")] !! 1%nat
               = Some (Text (lit "Graduates will excel."))) by reflexivity.
  split; [exact H1|]. split; [exact H2|]. split; [exact H3|]. split; [exact H4|].
  exact (objective_becomes_description objectives_sheet 1 _ _ _ H1 H2 H3 H4).
Defined.

End LoaderMore.
